(** * Option pricing notebooks: a shallow embedding over the reals

    The two notebooks of the repository ([Pricing-Vanilla-Options.ipynb] and
    the up-and-out barrier / CVA notebook) are embedded here function by
    function.

    Conventions of the embedding.
    - Python and numpy floating-point numbers are idealised as real numbers:
      [np.log], [np.exp], [np.sqrt] are [ln], [exp], [sqrt]; [x**n] with an
      integer literal or loop index [n] is [x ^ n]; [x**y] with a float
      exponent is [Rpower x y].  IEEE special values (inf, nan) and rounding
      are outside the model, so the theorems carry the positivity
      hypotheses under which numpy produces none.
    - [scipy.stats.norm.cdf] is a library function: it is a parameter
      [norm_cdf] of the definitions, and each theorem lists the facts about
      the normal distribution function it uses.
    - [np.random] is modelled by the stream of standard normal variates the
      seeded generator hands out; arrays are filled from it in row-major
      order.
    - A Python call either returns or raises: fallible code lives in the
      monad [res].  A division between two Python numbers raises
      [ZeroDivisionError] on a zero divisor; a division between numpy
      scalars does not raise. *)

From Stdlib Require Import Reals Lra Lia.
From stdpp Require Import base list.

Open Scope R_scope.

(** ** Outcomes of a Python call *)

Inductive exn : Set :=
| ZeroDivisionError
| IndexError
| ValueError
| LinAlgError.

Inductive res (A : Type) : Type :=
| Ok (a : A)
| Raise (e : exn).

Arguments Ok {A} a.
Arguments Raise {A} e.

#[global] Instance res_ret : MRet res := fun A a => Ok a.

#[global] Instance res_bind : MBind res :=
  fun A B f m => match m with Ok a => f a | Raise e => Raise e end.

(** [a / b] on Python numbers. *)
Definition pdiv (a b : R) : res R :=
  if Req_dec_T b 0 then Raise ZeroDivisionError else Ok (a / b).

(** [for x in xs: s = body x s], stopping at the first exception. *)
Fixpoint for_ {St : Type} (xs : list nat) (body : nat -> St -> res St) (s : St)
  : res St :=
  match xs with
  | [] => Ok s
  | x :: xs' => s' ← body x s; for_ xs' body s'
  end.

(** [range(n)] and [range(n-1, -1, -1)]. *)
Definition range (n : nat) : list nat := seq 0 n.
Definition range_down (n : nat) : list nat := rev (seq 0 n).

(** ** numpy arrays

    A one-dimensional array is a list, a two-dimensional array is the list
    of its rows.  Indexing outside an array raises [IndexError]; combining
    arrays of different shapes raises [ValueError]. *)

Abbreviation matrix := (list (list R)).

(** [np.zeros(n)] and [np.zeros((n, k))]. *)
Definition np_zeros (n : nat) : list R := replicate n 0.
Definition np_zeros2 (n k : nat) : matrix := replicate n (np_zeros k).

(** [m[i, j]] *)
Definition mget (m : matrix) (i j : nat) : res R :=
  match m !! i with
  | Some row => match row !! j with Some x => Ok x | None => Raise IndexError end
  | None => Raise IndexError
  end.

(** [m[i, j] = v] *)
Definition mset (m : matrix) (i j : nat) (v : R) : res matrix :=
  match m !! i with
  | Some row =>
      if decide (j < length row)%nat
      then Ok (<[i := <[j := v]> row]> m)
      else Raise IndexError
  | None => Raise IndexError
  end.

(** [m[:, j]] *)
Fixpoint mcol (m : matrix) (j : nat) : res (list R) :=
  match m with
  | [] => Ok []
  | row :: m' =>
      match row !! j with
      | Some x => xs ← mcol m' j; mret (x :: xs)
      | None => Raise IndexError
      end
  end.

(** [m[:, j] = v] *)
Definition mset_col (m : matrix) (j : nat) (v : list R) : res matrix :=
  if decide (Forall (fun row : list R => (j < length row)%nat) m)
  then if decide (length v = length m)
       then Ok (zip_with (fun (row : list R) (x : R) => <[j := x]> row) m v)
       else Raise ValueError
  else Raise IndexError.

(** [m[:, -1]] *)
Fixpoint mcol_last (m : matrix) : res (list R) :=
  match m with
  | [] => Ok []
  | row :: m' =>
      match last row with
      | Some x => xs ← mcol_last m'; mret (x :: xs)
      | None => Raise IndexError
      end
  end.

(** Element-wise binary operation on two arrays of the same shape. *)
Definition np_zip (f : R -> R -> R) (a b : list R) : res (list R) :=
  if decide (length a = length b) then Ok (zip_with f a b) else Raise ValueError.

(** [np.maximum(a, b)] on two arrays. *)
Definition np_maximum (a b : list R) : res (list R) := np_zip Rmax a b.

(** [np.max(a)] of a one-dimensional array; the empty array has no maximum. *)
Definition np_max (a : list R) : res R :=
  match a with
  | [] => Raise ValueError
  | x :: a' => Ok (foldl Rmax x a')
  end.

(** [np.max(m, axis=1)] *)
Fixpoint np_max_axis1 (m : matrix) : res (list R) :=
  match m with
  | [] => Ok []
  | row :: m' => x ← np_max row; xs ← np_max_axis1 m'; mret (x :: xs)
  end.

(** [a.sum()], [a.mean()] and [a.std()]. *)
Definition np_sum (a : list R) : R := foldr Rplus 0 a.
Definition np_mean (a : list R) : R := np_sum a / INR (length a).
Definition np_std (a : list R) : R :=
  sqrt (np_mean (map (fun x => (x - np_mean a) ^ 2) a)).

(** [np.cumprod(a)] along a row. *)
Fixpoint cumprod_from (acc : R) (a : list R) : list R :=
  match a with
  | [] => []
  | x :: a' => (acc * x) :: cumprod_from (acc * x) a'
  end.
Definition np_cumprod (a : list R) : list R := cumprod_from 1 a.

(** [m[i, :]] *)
Definition mrow (m : matrix) (i : nat) : res (list R) :=
  match m !! i with Some row => Ok row | None => Raise IndexError end.

(** [np.matmul(A, B)]: row [i] of the product is the sum of the rows of [B]
    weighted by row [i] of [A]. *)
Definition np_matmul (A B : matrix) : matrix :=
  map (fun arow =>
         foldr (fun (ab : R * list R) acc => zip_with Rplus (map (Rmult ab.1) ab.2) acc)
               (np_zeros (length (default [] (head B))))
               (zip arow B))
      A.

(** [np.linalg.cholesky(np.array([[1,rho],[rho,1]]))]: the lower-triangular
    factor of the correlation matrix, which exists when the matrix is
    positive definite; numpy raises [LinAlgError] otherwise. *)
Definition cholesky_corr (rho : R) : res matrix :=
  if Rlt_dec (rho ^ 2) 1
  then Ok [[1; 0]; [rho; sqrt (1 - rho ^ 2)]]
  else Raise LinAlgError.

(** [l[i] = x] on a Python list. *)
Definition list_setitem {A : Type} (l : list A) (i : nat) (x : A) : res (list A) :=
  if decide (i < length l)%nat then Ok (<[i := x]> l) else Raise IndexError.

(** [int(x)]: truncation towards zero. *)
Definition py_int (x : R) : Z :=
  if Rle_dec 0 x then Int_part x else (- Int_part (- x))%Z.

(** [np.random.randn(rows, cols)] drawn from the stream [gauss] of standard
    normal variates, starting at position [off]; the array is filled row by
    row. *)
Definition randn (gauss : nat -> R) (off rows cols : nat) : matrix :=
  map (fun i => map (fun k => gauss (off + i * cols + k)%nat) (seq 0 cols))
      (seq 0 rows).

(** ** Pricing-Vanilla-Options.ipynb *)

Module Vanilla.
Section WithCdf.

Variable norm_cdf : R -> R.

(** [def vanillaBS(S, K, T, sig, r = 0, call = True)] *)
Definition vanillaBS (S K T sig r : R) (call : bool) : res R :=
  q ← pdiv S K;
  let d1 := (ln q + (r + sig ^ 2 / 2) * T) / (sig * sqrt T) in
  let d2 := d1 - sig * sqrt T in
  let C := S * norm_cdf d1 - exp (- r * T) * K * norm_cdf d2 in
  let P := - S * norm_cdf (- d1) + exp (- r * T) * K * norm_cdf (- d2) in
  mret (if call then C else P).

End WithCdf.

(** [def vanillaTree(S, K, T, N, sig, r, d, c=True)], in three parts: the
    loop under [#Building the tree for the underlying asset], the body of
    the loop under [#Building the tree for the option], and the function.

    [N] is a Python int.  The embedding covers [N >= 0]; with a negative
    [N] the code raises before it prices anything ([ValueError] from
    [np.zeros] for [N <= -2], [IndexError] at [call[:,N]] for [N = -1]),
    and no statement below speaks about such a call. *)
Definition vanillaTree_asset (S : R) (N : nat) (u d : R) (tree : matrix)
  : res matrix :=
  for_ (range (N + 1)) (fun j tree =>
    for_ (range (j + 1)) (fun i tree =>
      mset tree i j (S * u ^ (j - i) * d ^ i)) tree) tree.

Definition vanillaTree_node (r dt p : R) (j i : nat) (cp : matrix * matrix)
  : res (matrix * matrix) :=
  let (call, put) := cp in
  cu ← mget call i (j + 1);
  cd ← mget call (i + 1) (j + 1);
  call ← mset call i j (exp (- r * dt) * (p * cu + (1 - p) * cd));
  pu ← mget put i (j + 1);
  pd ← mget put (i + 1) (j + 1);
  put ← mset put i j (exp (- r * dt) * (p * pu + (1 - p) * pd));
  mret (call, put).

Definition vanillaTree (S K T : R) (N : nat) (sig r d : R) (c : bool) : res R :=
  let tree := np_zeros2 (N + 1) (N + 1) in
  dt ← pdiv T (INR N);
  let u := exp (sig * sqrt dt) in
  let d := 1 / u in
  let p := (exp (r * dt) - d) / (u - d) in
  tree ← vanillaTree_asset S N u d tree;
  let call := np_zeros2 (N + 1) (N + 1) in
  let put := np_zeros2 (N + 1) (N + 1) in
  colN ← mcol tree N;
  callN ← np_maximum (np_zeros (N + 1)) (map (fun x => x - K) colN);
  call ← mset_col call N callN;
  colN ← mcol tree N;
  putN ← np_maximum (np_zeros (N + 1)) (map (fun x => - x + K) colN);
  put ← mset_col put N putN;
  cp ← for_ (range_down N) (fun j cp =>
          for_ (range (j + 1)) (vanillaTree_node r dt p j) cp) (call, put);
  if c then mget cp.1 0 0 else mget cp.2 0 0.

Section WithRandom.

(** The variates handed out after [np.random.seed(42)]. *)
Variable gauss : nat -> R.

(** The simulation of [vanillaMC]: the array [path], one row per path. *)
Definition vanillaMC_path (S : R) (N : nat) (sig r : R) : matrix :=
  let dt := 1 / 10 in
  let W := map (map (fun z => z * sig * sqrt dt))
               (randn gauss 0 N (Z.to_nat (py_int (1 / dt)))) in
  map (fun row => map (fun x => x * S)
                      (np_cumprod (map (fun w => exp ((r - sig ^ 2 / 2) * dt + w)) row)))
      W.

(** [def vanillaMC(S, K, T, N, sig, r, c=True)] *)
Definition vanillaMC (S K T : R) (N : nat) (sig r : R) (c : bool) : res R :=
  let path := vanillaMC_path S N sig r in
  ST ← mcol_last path;
  mret (if c
        then exp (- r * T) * np_mean (map (fun s => Rmax (s - K) 0) ST)
        else exp (- r * T) * np_mean (map (fun s => Rmax (- s + K) 0) ST)).

End WithRandom.
End Vanilla.

(** ** The up-and-out call and CVA notebook *)

Module UpAndOut.

(** The module-level names bound by the parameter cell
    [T = 1; S = 100; K = S; L = 150; r = 0.08; sigma = 0.3; sigma2 = 0.25;
     rho = 0.2; t = 0; debt = 175; recovery = 0.25; V = 200]. *)
Record globals : Type := Globals {
  g_T : R; g_S : R; g_K : R; g_L : R; g_r : R; g_sigma : R; g_sigma2 : R;
  g_rho : R; g_t : R; g_debt : R; g_recovery : R; g_V : R
}.

Definition notebook_globals : globals :=
  {| g_T := 1; g_S := 100; g_K := 100; g_L := 150; g_r := 8 / 100;
     g_sigma := 3 / 10; g_sigma2 := 25 / 100; g_rho := 2 / 10; g_t := 0;
     g_debt := 175; g_recovery := 25 / 100; g_V := 200 |}.

Section WithCdf.

Variable norm_cdf : R -> R.

(** [def d1(S,K,r,sigma,tau)] *)
Definition d1 (S K r sigma tau : R) : res R :=
  q ← pdiv S K;
  mret ((ln q + (r + sigma ^ 2 / 2) * tau) / (sigma * sqrt tau)).

(** [def d2(S,K,r,sigma,tau)] *)
Definition d2 (S K r sigma tau : R) : res R :=
  a ← d1 S K r sigma tau;
  mret (a - sigma * sqrt tau).

(** [def discounted_value(S,K,r,T)], on one element of the array [S]. *)
Definition discounted_value (S K r T : R) : R :=
  exp (- r * T) * Rmax (S - K) 0.

(** [def analytical_value_Call_Up_Out(S0,K,L,r,sigma,T)]; the body reads
    the module-level name [S].  The two powers of [L/S0] are powers of
    Python floats, here [Rpower]: Python raises [OverflowError] when such a
    power leaves the range of a double, which like every other effect of
    the finite range is not in the model.  A statement below that asserts
    a return for a whole family of inputs keeps both powers at most 1. *)
Definition analytical_value_Call_Up_Out (g : globals) (S0 K L r sigma T : R)
  : res R :=
  let S := g_S g in
  l ← pdiv (r + sigma ^ 2 / 2) (sigma ^ 2);
  q ← pdiv S0 L;
  let x1 := ln q / (sigma * sqrt T) + l * sigma * sqrt T in
  q ← pdiv L S0;
  let y1 := ln q / (sigma * sqrt T) + l * sigma * sqrt T in
  q ← pdiv (L ^ 2) (S0 * K);
  let y := ln q / (sigma * sqrt T) + l * sigma * sqrt T in
  a ← d1 S K r sigma T;
  b ← d2 S K r sigma T;
  h ← pdiv L S0;
  h' ← pdiv L S0;
  mret (S * norm_cdf a - K * exp (- r * T) * norm_cdf b - S0 * norm_cdf x1
        + K * exp (- r * T) * norm_cdf (x1 - sigma * sqrt T)
        + S0 * Rpower h (2 * l) * (norm_cdf (- y) - norm_cdf (- y1))
        - K * exp (- r * T) * Rpower h' (2 * l - 2)
          * (norm_cdf (- y + sigma * sqrt T) - norm_cdf (- y1 + sigma * sqrt T))).

(** The Monte Carlo cell, one row of [path] (the row starts with the column
    [S*np.ones] put in front by [np.hstack]):
    [ST = path[:,-1]; ST[np.max(path,axis=1)>L] = 0;
     upOutCall_val = discounted_value(ST,K,r,T)]. *)
Definition upOutCall_val_row (g : globals) (row : list R) : res R :=
  ST ← match last row with Some x => Ok x | None => Raise IndexError end;
  mx ← np_max row;
  let ST := if Rlt_dec (g_L g) mx then 0 else ST in
  mret (discounted_value ST (g_K g) (g_r g) (g_T g)).

(** One round of the Monte Carlo loop with [n] paths, from the normal
    variates [Z] of [np.random.randn(n, int(1/dt))]: the arrays [path] and
    [upOutCall_val] and the entry [upOutCall[c]]. *)
Definition upOutCall_path (g : globals) (Z : matrix) : matrix :=
  let dt := 1 / 10000 in
  let W := map (map (fun z => z * g_sigma g * sqrt dt)) Z in
  let path := map (fun row => map (fun x => x * g_S g)
                (np_cumprod (map (fun w => exp ((g_r g - g_sigma g ^ 2 / 2) * dt + w)) row)))
                W in
  map (fun row => (g_S g * 1) :: row) path.

Fixpoint upOutCall_val (g : globals) (path : matrix) : res (list R) :=
  match path with
  | [] => Ok []
  | row :: path' =>
      x ← upOutCall_val_row g row; xs ← upOutCall_val g path'; mret (x :: xs)
  end.

Definition upOutCall_round (g : globals) (Z : matrix) : res R :=
  v ← upOutCall_val g (upOutCall_path g Z);
  mret (np_mean v).

(** The loop of the Monte Carlo cell.  Its state is the two result lists
    [upOutCall] and [sig] (both start as [[None]*30]), the counter [c], and
    the number of variates drawn so far from the stream [gauss] of
    [np.random.seed(42)]. *)
Record mc_state : Type := McState {
  mc_upOutCall : list (option R);
  mc_sig : list (option R);
  mc_c : nat;
  mc_drawn : nat
}.

(** The body of [for i in range(1,31)]. *)
Definition mc_round (g : globals) (gauss : nat -> R) (i : nat) (st : mc_state)
  : res mc_state :=
  let dt := 1 / 10000 in
  let rows := (i * 1000)%nat in
  let cols := Z.to_nat (py_int (1 / dt)) in
  let Z := randn gauss (mc_drawn st) rows cols in
  upOutCall_val ← upOutCall_val g (upOutCall_path g Z);
  upOutCall ← list_setitem (mc_upOutCall st) (mc_c st) (Some (np_mean upOutCall_val));
  sig ← list_setitem (mc_sig st) (mc_c st)
          (Some (np_std upOutCall_val / sqrt (INR (i * 1000))));
  mret (McState upOutCall sig (mc_c st + 1) (mc_drawn st + rows * cols)).

(** The cell up to the end of its loop: the initialisations and
    [for i in range(1,31)]. *)
Definition mc_loop (g : globals) (gauss : nat -> R) : res mc_state :=
  let st := McState (replicate 30 None) (replicate 30 None) 0 0 in
  for_ (seq 1 30) (mc_round g gauss) st.

(** The cell [C = S*stats.norm.cdf(d1(S,K,r,sigma,T)) - ...]. *)
Definition C (g : globals) : res R :=
  a ← d1 (g_S g) (g_K g) (g_r g) (g_sigma g) (g_T g);
  b ← d2 (g_S g) (g_K g) (g_r g) (g_sigma g) (g_T g);
  mret (g_S g * norm_cdf a - g_K g * exp (- g_r g * g_T g) * norm_cdf b).

(** The CVA cell up to the end of its simulation loop, with [m] steps and
    [n] paths ([m = 1000] and [50000] in the cell): the arrays [paths] and
    [firm_path].  [gauss] is the stream of variates handed out after
    [np.random.seed(42)]; round [j] of the loop draws
    [np.random.normal(size=(2,n))] from it. *)
Definition cva_step (g : globals) (gauss : nat -> R) (H : matrix) (dt : R)
  (n j : nat) (pf : matrix * matrix) : res (matrix * matrix) :=
  let (paths, firm_path) := pf in
  let norm_matrix := randn gauss (j * (2 * n)) 2 n in
  let corr_norm_matrix := np_matmul H norm_matrix in
  pj ← mcol paths j;
  c0 ← mrow corr_norm_matrix 0;
  new ← np_zip (fun p z =>
           p * exp ((g_r g - g_sigma g ^ 2 / 2) * dt + g_sigma g * sqrt dt * z)) pj c0;
  paths ← mset_col paths (j + 1) new;
  fj ← mcol firm_path j;
  c1 ← mrow corr_norm_matrix 1;
  new ← np_zip (fun p z =>
           p * exp ((g_r g - g_sigma2 g ^ 2 / 2) * dt + g_sigma2 g * sqrt dt * z)) fj c1;
  firm_path ← mset_col firm_path (j + 1) new;
  mret (paths, firm_path).

Definition cva_simulate (g : globals) (gauss : nat -> R) (m n : nat)
  : res (matrix * matrix) :=
  H ← cholesky_corr (g_rho g);
  dt ← pdiv 1 (INR m);
  let paths := np_zeros2 n (m + 1) in
  paths ← mset_col paths 0 (replicate n (g_S g));
  let firm_path := np_zeros2 n (m + 1) in
  firm_path ← mset_col firm_path 0 (replicate n (g_V g));
  for_ (range m) (cva_step g gauss H dt n) (paths, firm_path).

(** The CVA cell after the simulation loop, from the arrays [paths] and
    [firm_path]: the Monte Carlo estimates. *)
Record cva_estimates : Type := CvaEstimates {
  final_values : list R;
  amount_lost : list R;
  cva_est : R;
  cva_std : R;
  DFValue : R
}.

Definition cva_final_values (g : globals) (paths : matrix) : res (list R) :=
  lastcol ← mcol_last paths;
  let final_values := map (fun x => x - g_K g) lastcol in
  max_values ← np_max_axis1 paths;
  let final_values := map (fun x => if Rlt_dec x 0 then 0 else x) final_values in
  np_zip (fun x mx => if Rge_dec mx (g_L g) then 0 else x) final_values max_values.

Definition cva_cell (g : globals) (paths firm_path : matrix) : res cva_estimates :=
  final_values ← cva_final_values g paths;
  term_firm_val ← mcol_last firm_path;
  amount_lost ← np_zip (fun v x =>
      exp (- g_r g * g_T g) * (1 - g_recovery g)
      * (if Rlt_dec v (g_debt g) then 1 else 0) * x) term_firm_val final_values;
  let cva_est := np_mean amount_lost in
  let cva_std := np_std amount_lost / sqrt 50000 in
  let DFValue := np_mean (map (fun x => x * exp (- g_r g * g_T g)) final_values) in
  mret (CvaEstimates final_values amount_lost cva_est cva_std DFValue).

(** The end of the CVA cell: the analytical cross-check
    [default_prob = stats.norm.cdf(-d2(V,debt,r,sigma,T))] and
    [uncorr_cva = (1-recovery)*default_prob*C]. *)
Definition default_prob (g : globals) : res R :=
  b ← d2 (g_V g) (g_debt g) (g_r g) (g_sigma g) (g_T g);
  mret (norm_cdf (- b)).

Definition uncorr_cva (g : globals) : res R :=
  dp ← default_prob g;
  c ← C g;
  mret ((1 - g_recovery g) * dp * c).

End WithCdf.
End UpAndOut.

(** ** The formulas of the specification *)

Module Spec.
Section WithCdf.

Variable Phi : R -> R.

Definition d1 (S0 K T sigma r : R) : R :=
  (ln (S0 / K) + (r + sigma ^ 2 / 2) * T) / (sigma * sqrt T).

Definition d2 (S0 K T sigma r : R) : R :=
  d1 S0 K T sigma r - sigma * sqrt T.

Definition call_value (S0 K T sigma r : R) : R :=
  S0 * Phi (d1 S0 K T sigma r) - K * exp (- (r * T)) * Phi (d2 S0 K T sigma r).

Definition put_value (S0 K T sigma r : R) : R :=
  K * exp (- (r * T)) * Phi (- d2 S0 K T sigma r) - S0 * Phi (- d1 S0 K T sigma r).

(** The reflection-principle terms of the up-and-out call. *)
Definition lambda (sigma r : R) : R := (r + sigma ^ 2 / 2) / sigma ^ 2.

Definition x1 (S0 L T sigma r : R) : R :=
  ln (S0 / L) / (sigma * sqrt T) + lambda sigma r * sigma * sqrt T.

Definition y1 (S0 L T sigma r : R) : R :=
  ln (L / S0) / (sigma * sqrt T) + lambda sigma r * sigma * sqrt T.

Definition y (S0 K L T sigma r : R) : R :=
  ln (L ^ 2 / (S0 * K)) / (sigma * sqrt T) + lambda sigma r * sigma * sqrt T.

Definition barrier_terms (S0 K L T sigma r : R) : R :=
  - S0 * Phi (x1 S0 L T sigma r)
  + K * exp (- (r * T)) * Phi (x1 S0 L T sigma r - sigma * sqrt T)
  + S0 * Rpower (L / S0) (2 * lambda sigma r)
    * (Phi (- y S0 K L T sigma r) - Phi (- y1 S0 L T sigma r))
  - K * exp (- (r * T)) * Rpower (L / S0) (2 * lambda sigma r - 2)
    * (Phi (- y S0 K L T sigma r + sigma * sqrt T)
       - Phi (- y1 S0 L T sigma r + sigma * sqrt T)).

Definition upAndOutCallPrice (S0 K L T sigma r : R) : R :=
  call_value S0 K T sigma r + barrier_terms S0 K L T sigma r.

End WithCdf.

(** The path simulator: one exact lognormal step, the observations after
    each step, and the path over [[0, T]] cut into [numSteps] intervals. *)
Definition gbm_step (sigma r dt s z : R) : R :=
  s * exp ((r - sigma ^ 2 / 2) * dt + sigma * sqrt dt * z).

Fixpoint gbm_path (sigma r dt s : R) (zs : list R) : list R :=
  match zs with
  | [] => []
  | z :: zs' =>
      let s' := gbm_step sigma r dt s z in
      s' :: gbm_path sigma r dt s' zs'
  end.

Definition simulatePath (S0 sigma r T : R) (numSteps : nat) (zs : list R) : list R :=
  S0 :: gbm_path sigma r (T / INR numSteps) S0 zs.

(** Observation [j] of the path driven by the variates [z 0, z 1, ...]. *)
Fixpoint gbm_at (sigma r dt S0 : R) (z : nat -> R) (j : nat) : R :=
  match j with
  | O => S0
  | S j' => gbm_step sigma r dt (gbm_at sigma r dt S0 z j') (z j')
  end.

(** The lattice pricer: factors, node prices, terminal payoff and backward
    induction.  [node_value k i j] is the value at level [i] of time step
    [j], [k] steps before maturity. *)
Definition lattice_u (T : R) (N : nat) (sigma : R) : R := exp (sigma * sqrt (T / INR N)).
Definition lattice_d (T : R) (N : nat) (sigma : R) : R := 1 / lattice_u T N sigma.
Definition lattice_p (T : R) (N : nat) (sigma r : R) : R :=
  (exp (r * (T / INR N)) - lattice_d T N sigma)
  / (lattice_u T N sigma - lattice_d T N sigma).

Definition node_price (S0 u d : R) (i j : nat) : R := S0 * u ^ (j - i) * d ^ i.

Definition payoff (call : bool) (K s : R) : R :=
  if call then Rmax (s - K) 0 else Rmax (K - s) 0.

Fixpoint node_value (pay : R -> R) (price : nat -> nat -> R) (disc p : R)
  (k i j : nat) : R :=
  match k with
  | O => pay (price i j)
  | S k' => disc * (p * node_value pay price disc p k' i (j + 1)
                    + (1 - p) * node_value pay price disc p k' (i + 1) (j + 1))
  end.

Definition treePrice (S0 K T : R) (N : nat) (sigma r : R) (call : bool) : R :=
  let u := lattice_u T N sigma in
  let d := lattice_d T N sigma in
  let p := lattice_p T N sigma r in
  node_value (payoff call K) (node_price S0 u d) (exp (- (r * (T / INR N)))) p N 0 0.

End Spec.

(** Shapes of arrays, used to state that an index is in range:
    [shape n k m] says that [m] has [n] rows of [k] entries. *)
Definition shape (n k : nat) (m : matrix) : Prop :=
  length m = n /\ Forall (fun row : list R => length row = k) m.

(** [filled N V j0 m]: from time step [j0] on, the grid [m] of a lattice of
    [N] steps holds the value [V (N - j) i j] at each node [i <= j]. *)
Definition filled (N : nat) (V : nat -> nat -> nat -> R) (j0 : nat) (m : matrix)
  : Prop :=
  shape (N + 1) (N + 1) m
  /\ forall i j, (j0 <= j <= N)%nat -> (i <= j)%nat ->
       mget m i j = Ok (V (N - j)%nat i j).

(** The asset and the firm value of path [i] after [j] steps of length [dt]. *)
Definition cva_asset (g : UpAndOut.globals) (gauss : nat -> R) (dt : R) (n i j : nat) : R :=
  Spec.gbm_at (UpAndOut.g_sigma g) (UpAndOut.g_r g) dt (UpAndOut.g_S g)
    (fun j => gauss (j * (2 * n) + i)%nat) j.

Definition cva_firm (g : UpAndOut.globals) (gauss : nat -> R) (dt : R) (n i j : nat) : R :=
  Spec.gbm_at (UpAndOut.g_sigma2 g) (UpAndOut.g_r g) dt (UpAndOut.g_V g)
    (fun j => UpAndOut.g_rho g * gauss (j * (2 * n) + i)%nat
              + sqrt (1 - UpAndOut.g_rho g ^ 2) * gauss (j * (2 * n) + n + i)%nat) j.

(** The last entry and the largest entry of a non-empty row (0 on the
    empty row, which no array of the notebooks contains). *)
Definition row_last (row : list R) : R := default 0 (last row).
Definition row_max (row : list R) : R :=
  match row with [] => 0 | x :: row' => foldl Rmax x row' end.

(** What the loop has established once its counter is [c]: the first [c]
    slots of both lists are filled. *)
Definition mc_filled (g : UpAndOut.globals) (c : nat) (st : UpAndOut.mc_state) : Prop :=
  UpAndOut.mc_c st = c
  /\ length (UpAndOut.mc_upOutCall st) = 30%nat
  /\ length (UpAndOut.mc_sig st) = 30%nat
  /\ (forall k, (k < c)%nat ->
        exists e, UpAndOut.mc_upOutCall st !! k = Some (Some e)
                  /\ 0 <= e <= exp (- UpAndOut.g_r g * UpAndOut.g_T g)
                               * (UpAndOut.g_L g - UpAndOut.g_K g))
  /\ (forall k, (k < c)%nat ->
        exists s, UpAndOut.mc_sig st !! k = Some (Some s) /\ 0 <= s).

(** ** Facts about the normal distribution function used below *)

Definition cdf_symmetric (Phi : R -> R) : Prop := forall x, Phi (- x) = 1 - Phi x.
Definition cdf_monotone (Phi : R -> R) : Prop := forall x y, x <= y -> Phi x <= Phi y.
Definition cdf_increasing (Phi : R -> R) : Prop := forall x y, x < y -> Phi x < Phi y.
Definition cdf_unit (Phi : R -> R) : Prop := forall x, 0 <= Phi x <= 1.
Definition cdf_median (Phi : R -> R) : Prop := Phi 0 = 1 / 2.

(** A distribution function with all of these properties, in closed form:
    it instantiates the theorems that assume them. *)
Definition logistic (x : R) : R := 1 / (1 + exp (- x)).

(** ** Theorems *)

Ltac res_simpl := unfold mbind, res_bind, mret, res_ret.

Lemma pdiv_ok (a b : R) : b <> 0 -> pdiv a b = Ok (a / b).
Proof.
  intros Hb. unfold pdiv.
  destruct (Req_dec_T b 0) as [E | _]; [contradiction | reflexivity].
Qed.

Section Logistic.

Lemma logistic_pos (x : R) : 0 < logistic x < 1.
Proof.
  unfold logistic. pose proof (exp_pos (- x)) as He.
  split.
  - apply Rdiv_lt_0_compat; lra.
  - apply (Rmult_lt_reg_r (1 + exp (- x))); [lra |].
    unfold Rdiv. rewrite Rmult_assoc, Rinv_l by lra. lra.
Qed.

Lemma logistic_symmetric : cdf_symmetric logistic.
Proof.
  intros x. unfold logistic. rewrite Ropp_involutive, exp_Ropp.
  pose proof (exp_pos x) as He. field. split; lra.
Qed.

Lemma logistic_increasing : cdf_increasing logistic.
Proof.
  intros x y Hxy. unfold logistic, Rdiv. rewrite !Rmult_1_l.
  pose proof (exp_pos (- x)) as Hx. pose proof (exp_pos (- y)) as Hy.
  apply Rinv_lt_contravar.
  - apply Rmult_lt_0_compat; lra.
  - apply Rplus_lt_compat_l, exp_increasing. lra.
Qed.

Lemma logistic_monotone : cdf_monotone logistic.
Proof.
  intros x y [Hlt | ->]; [left; now apply logistic_increasing | right; reflexivity].
Qed.

Lemma logistic_unit : cdf_unit logistic.
Proof. intros x. pose proof (logistic_pos x). lra. Qed.

Lemma logistic_median : cdf_median logistic.
Proof. unfold cdf_median, logistic. rewrite Ropp_0, exp_0. lra. Qed.

End Logistic.

(** ** Arrays and loops *)

Section Arrays.

Lemma shape_zeros (n k : nat) : shape n k (np_zeros2 n k).
Proof.
  split.
  - apply length_replicate.
  - apply Forall_replicate, length_replicate.
Qed.

Lemma shape_row (n k : nat) (m : matrix) (i : nat) :
  shape n k m -> (i < n)%nat -> exists row, m !! i = Some row /\ length row = k.
Proof.
  intros [Hlen Hrows] Hi.
  destruct (lookup_lt_is_Some_2 m i) as [row Hrow]; [lia |].
  exists row. split; [exact Hrow |].
  exact (proj1 (Forall_lookup _ _) Hrows i row Hrow).
Qed.

Lemma mget_ok (n k : nat) (m : matrix) (i j : nat) :
  shape n k m -> (i < n)%nat -> (j < k)%nat -> exists x, mget m i j = Ok x.
Proof.
  intros Hm Hi Hj. destruct (shape_row n k m i Hm Hi) as [row [Hrow Hlen]].
  destruct (lookup_lt_is_Some_2 row j) as [x Hx]; [lia |].
  exists x. unfold mget. now rewrite Hrow, Hx.
Qed.

Lemma mset_spec (n k : nat) (m : matrix) (i j : nat) (v : R) :
  shape n k m -> (i < n)%nat -> (j < k)%nat ->
  exists m', mset m i j v = Ok m'
    /\ shape n k m'
    /\ mget m' i j = Ok v
    /\ (forall i' j', i' <> i \/ j' <> j -> mget m' i' j' = mget m i' j').
Proof.
  intros Hm Hi Hj. destruct (shape_row n k m i Hm Hi) as [row [Hrow Hlen]].
  destruct Hm as [Hn Hrows].
  exists (<[i := <[j := v]> row]> m). unfold mset. rewrite Hrow.
  destruct (decide (j < length row)%nat) as [_ | Hn']; [| lia].
  split; [reflexivity |]. split; [| split].
  - split; [now rewrite length_insert |].
    apply Forall_insert; [exact Hrows | now rewrite length_insert].
  - unfold mget. rewrite list_lookup_insert_eq by lia.
    rewrite list_lookup_insert_eq by lia. reflexivity.
  - intros i' j' Hne. unfold mget.
    destruct (decide (i' = i)) as [-> | Hi'].
    + rewrite list_lookup_insert_eq by lia. rewrite Hrow.
      rewrite list_lookup_insert_ne by (destruct Hne; congruence). reflexivity.
    + rewrite list_lookup_insert_ne by congruence. reflexivity.
Qed.

Lemma mcol_spec (n k : nat) (m : matrix) (j : nat) :
  shape n k m -> (j < k)%nat ->
  exists col, mcol m j = Ok col
    /\ length col = n
    /\ (forall i x, col !! i = Some x -> mget m i j = Ok x).
Proof.
  intros [Hn Hrows] Hj. revert n Hn.
  induction Hrows as [| row m Hrow _ IH]; intros n Hn; cbn [mcol].
  - exists []. split; [reflexivity |]. split; [exact Hn |]. intros i x H. discriminate H.
  - destruct (lookup_lt_is_Some_2 row j) as [x Hx]; [lia |].
    destruct (IH (length m) eq_refl) as [col [Hcol [Hlen Hget]]].
    rewrite Hx, Hcol. exists (x :: col). split; [reflexivity |].
    split; [cbn in *; lia |].
    intros [| i] y Hy; cbn in Hy.
    + injection Hy as <-. unfold mget. cbn. now rewrite Hx.
    + apply Hget in Hy. exact Hy.
Qed.

Lemma mset_col_spec (n k : nat) (m : matrix) (j : nat) (v : list R) :
  shape n k m -> (j < k)%nat -> length v = n ->
  exists m', mset_col m j v = Ok m'
    /\ shape n k m'
    /\ (forall i x, v !! i = Some x -> mget m' i j = Ok x)
    /\ (forall i j', j' <> j -> mget m' i j' = mget m i j').
Proof.
  intros [Hn Hrows] Hj Hv. unfold mset_col.
  destruct (decide (Forall (fun row : list R => (j < length row)%nat) m)) as [_ | Hno].
  2:{ exfalso. apply Hno. eapply Forall_impl; [exact Hrows |]. cbn. intros row Hr. lia. }
  destruct (decide (length v = length m)) as [_ | Hno]; [| congruence].
  eexists. split; [reflexivity |]. split; [split | split].
  - rewrite length_zip_with. lia.
  - apply Forall_forall. intros row' Hin.
    apply list_elem_of_lookup in Hin as [i Hi].
    apply lookup_zip_with_Some in Hi as (row & x & -> & Hrow & Hx).
    rewrite length_insert.
    exact (proj1 (Forall_lookup _ _) Hrows i row Hrow).
  - intros i x Hx.
    destruct (lookup_lt_is_Some_2 m i) as [row Hrow].
    { apply lookup_lt_Some in Hx. lia. }
    unfold mget. rewrite lookup_zip_with, Hrow, Hx. cbn.
    rewrite list_lookup_insert_eq; [reflexivity |].
    pose proof (proj1 (Forall_lookup _ _) Hrows i row Hrow) as Hl. cbn in Hl. lia.
  - intros i j' Hne. unfold mget. rewrite lookup_zip_with.
    destruct (m !! i) as [row |] eqn:Hrow; [| reflexivity].
    destruct (lookup_lt_is_Some_2 v i) as [x Hx].
    { apply lookup_lt_Some in Hrow. lia. }
    rewrite Hx. cbn. now rewrite list_lookup_insert_ne by congruence.
Qed.

Lemma np_zip_ok (f : R -> R -> R) (a b : list R) :
  length a = length b -> np_zip f a b = Ok (zip_with f a b).
Proof.
  intros H. unfold np_zip. destruct (decide (length a = length b)); [reflexivity | contradiction].
Qed.

End Arrays.

Section Loops.

Context {St : Type}.

Lemma for_seq_inv (P : nat -> St -> Prop) (body : nat -> St -> res St)
  (len a : nat) (s : St) :
  P a s ->
  (forall x t, (a <= x < a + len)%nat -> P x t ->
               exists t', body x t = Ok t' /\ P (S x) t') ->
  exists s', for_ (seq a len) body s = Ok s' /\ P (a + len)%nat s'.
Proof.
  revert a s. induction len as [| len IH]; intros a s Hs Hstep; cbn [seq for_].
  - exists s. split; [reflexivity |]. now rewrite Nat.add_0_r.
  - destruct (Hstep a s ltac:(lia) Hs) as [t [-> Ht]]. res_simpl.
    destruct (IH (S a) t Ht) as [s' [Hfor Hs']].
    { intros x u Hx. apply Hstep. lia. }
    exists s'. split; [exact Hfor |].
    now replace (a + S len)%nat with (S a + len)%nat by lia.
Qed.

Lemma for_range_inv (P : nat -> St -> Prop) (body : nat -> St -> res St)
  (n : nat) (s : St) :
  P 0%nat s ->
  (forall x t, (x < n)%nat -> P x t -> exists t', body x t = Ok t' /\ P (S x) t') ->
  exists s', for_ (range n) body s = Ok s' /\ P n s'.
Proof.
  intros Hs Hstep. apply (for_seq_inv P body n 0 s Hs).
  intros x t Hx. apply Hstep. lia.
Qed.

Lemma for_range_down_inv (P : nat -> St -> Prop) (body : nat -> St -> res St)
  (n : nat) (s : St) :
  P n s ->
  (forall x t, (x < n)%nat -> P (S x) t -> exists t', body x t = Ok t' /\ P x t') ->
  exists s', for_ (range_down n) body s = Ok s' /\ P 0%nat s'.
Proof.
  revert s. induction n as [| n IH]; intros s Hs Hstep.
  - exists s. split; [reflexivity | exact Hs].
  - unfold range_down. rewrite seq_S, rev_app_distr. cbn [rev app for_ Nat.add].
    destruct (Hstep n s ltac:(lia) Hs) as [t [-> Ht]]. res_simpl.
    apply (IH t Ht). intros x u Hx. apply Hstep. lia.
Qed.

End Loops.



Section VanillaAnalytic.

Variable Phi : R -> R.

Lemma vanillaBS_call_eq (S0 K T sigma r : R) :
  K <> 0 ->
  Vanilla.vanillaBS Phi S0 K T sigma r true = Ok (Spec.call_value Phi S0 K T sigma r).
Proof.
  intros HK. unfold Vanilla.vanillaBS. rewrite (pdiv_ok _ _ HK). res_simpl.
  unfold Spec.call_value, Spec.d2, Spec.d1. f_equal.
  replace (- r * T) with (- (r * T)) by ring. ring.
Qed.

Lemma vanillaBS_put_eq (S0 K T sigma r : R) :
  K <> 0 ->
  Vanilla.vanillaBS Phi S0 K T sigma r false = Ok (Spec.put_value Phi S0 K T sigma r).
Proof.
  intros HK. unfold Vanilla.vanillaBS. rewrite (pdiv_ok _ _ HK). res_simpl.
  unfold Spec.put_value, Spec.d2, Spec.d1. f_equal.
  replace (- r * T) with (- (r * T)) by ring. ring.
Qed.

End VanillaAnalytic.

(** ** The analytical vanilla pricer *)

(** C4: for valid inputs [vanillaBS] returns the Black-Scholes values: the
    call branch returns [S0*Phi(d1) - K*e^(-rT)*Phi(d2)] and the put branch
    [K*e^(-rT)*Phi(-d2) - S0*Phi(-d1)], with [d1] and [d2] as in the
    specification. *)
Theorem vanillaBS_black_scholes (Phi : R -> R) (S0 K T sigma r : R) :
  0 < S0 -> 0 < K -> 0 < T -> 0 < sigma ->
  Vanilla.vanillaBS Phi S0 K T sigma r true
    = Ok (S0 * Phi (Spec.d1 S0 K T sigma r)
          - K * exp (- (r * T)) * Phi (Spec.d2 S0 K T sigma r))
  /\ Vanilla.vanillaBS Phi S0 K T sigma r false
    = Ok (K * exp (- (r * T)) * Phi (- Spec.d2 S0 K T sigma r)
          - S0 * Phi (- Spec.d1 S0 K T sigma r)).
Proof.
  intros _ HK _ _.
  assert (HK' : K <> 0) by lra.
  split.
  - apply (vanillaBS_call_eq Phi S0 K T sigma r HK').
  - apply (vanillaBS_put_eq Phi S0 K T sigma r HK').
Qed.

Lemma vanillaBS_black_scholes_witness :
  Vanilla.vanillaBS logistic 100 100 1 (2 / 10) (4 / 100) true
    = Ok (100 * logistic (Spec.d1 100 100 1 (2 / 10) (4 / 100))
          - 100 * exp (- (4 / 100 * 1)) * logistic (Spec.d2 100 100 1 (2 / 10) (4 / 100)))
  /\ Vanilla.vanillaBS logistic 100 100 1 (2 / 10) (4 / 100) false
    = Ok (100 * exp (- (4 / 100 * 1)) * logistic (- Spec.d2 100 100 1 (2 / 10) (4 / 100))
          - 100 * logistic (- Spec.d1 100 100 1 (2 / 10) (4 / 100))).
Proof.
  apply (vanillaBS_black_scholes logistic 100 100 1 (2 / 10) (4 / 100)); lra.
Defined.

(** C3: put-call parity.  For valid inputs the call and the put price of
    [vanillaBS] differ by [S0 - K*e^(-rT)], given [Phi(-x) = 1 - Phi(x)]. *)
Theorem vanillaBS_put_call_parity (Phi : R -> R) (S0 K T sigma r : R) :
  cdf_symmetric Phi ->
  0 < S0 -> 0 < K -> 0 < T -> 0 < sigma ->
  exists c p : R,
    Vanilla.vanillaBS Phi S0 K T sigma r true = Ok c
    /\ Vanilla.vanillaBS Phi S0 K T sigma r false = Ok p
    /\ c - p = S0 - K * exp (- (r * T)).
Proof.
  intros Hsym _ HK _ _.
  assert (HK' : K <> 0) by lra.
  exists (Spec.call_value Phi S0 K T sigma r), (Spec.put_value Phi S0 K T sigma r).
  split; [apply vanillaBS_call_eq; exact HK' |].
  split; [apply vanillaBS_put_eq; exact HK' |].
  unfold Spec.call_value, Spec.put_value.
  rewrite (Hsym (Spec.d1 S0 K T sigma r)), (Hsym (Spec.d2 S0 K T sigma r)).
  ring.
Qed.

Lemma vanillaBS_put_call_parity_witness :
  exists c p : R,
    Vanilla.vanillaBS logistic 100 100 1 (2 / 10) (4 / 100) true = Ok c
    /\ Vanilla.vanillaBS logistic 100 100 1 (2 / 10) (4 / 100) false = Ok p
    /\ c - p = 100 - 100 * exp (- (4 / 100 * 1)).
Proof.
  apply (vanillaBS_put_call_parity logistic 100 100 1 (2 / 10) (4 / 100));
    [exact logistic_symmetric | lra ..].
Defined.

(** ** The lattice pricer *)

(** C10: the price returned by [vanillaTree] does not depend on the
    argument [d]: the body rebinds [d] to [1/u] before reading it. *)
Theorem vanillaTree_ignores_d (S K T : R) (N : nat) (sig r d d' : R) (c : bool) :
  Vanilla.vanillaTree S K T N sig r d c = Vanilla.vanillaTree S K T N sig r d' c.
Proof. reflexivity. Qed.

Section Lattice.

Lemma vanillaTree_asset_spec (S : R) (N : nat) (u d : R) :
  exists tree,
    Vanilla.vanillaTree_asset S N u d (np_zeros2 (N + 1) (N + 1)) = Ok tree
    /\ shape (N + 1) (N + 1) tree
    /\ forall i j, (i <= j <= N)%nat -> mget tree i j = Ok (Spec.node_price S u d i j).
Proof.
  unfold Vanilla.vanillaTree_asset.
  destruct (for_range_inv
    (fun j tree => shape (N + 1) (N + 1) tree
       /\ forall i j', (j' < j)%nat -> (i <= j')%nat ->
            mget tree i j' = Ok (Spec.node_price S u d i j'))
    (fun j tree => for_ (range (j + 1))
       (fun i tree => mset tree i j (S * u ^ (j - i) * d ^ i)) tree)
    (N + 1) (np_zeros2 (N + 1) (N + 1))) as [tree [Hfor [Hshape Hget]]].
  - split; [apply shape_zeros | intros; lia].
  - intros j t Hj [Hshape Hdone].
    destruct (for_range_inv
      (fun i tree => shape (N + 1) (N + 1) tree
         /\ (forall i' j', (j' < j)%nat -> (i' <= j')%nat ->
               mget tree i' j' = Ok (Spec.node_price S u d i' j'))
         /\ (forall i', (i' < i)%nat -> mget tree i' j = Ok (Spec.node_price S u d i' j)))
      (fun i tree => mset tree i j (S * u ^ (j - i) * d ^ i))
      (j + 1) t) as [t' [Hfor' [Hshape' [Hold Hnew]]]].
    + split; [exact Hshape |]. split; [exact Hdone | intros; lia].
    + intros i w Hi [Hw [Hold Hcol]].
      destruct (mset_spec (N + 1) (N + 1) w i j (S * u ^ (j - i) * d ^ i) Hw)
        as [w' [Hset [Hw' [Hhit Hmiss]]]]; [lia | lia |].
      exists w'. split; [exact Hset |]. split; [exact Hw' |]. split.
      * intros i' j' Hj' Hi'. rewrite Hmiss by lia. now apply Hold.
      * intros i' Hi'. destruct (decide (i' = i)) as [-> | Hne].
        -- exact Hhit.
        -- rewrite Hmiss by lia. apply Hcol. lia.
    + exists t'. split; [exact Hfor' |]. split; [exact Hshape' |].
      intros i j' Hj' Hi. destruct (decide (j' = j)) as [-> | Hne].
      * apply Hnew. lia.
      * apply Hold; lia.
  - exists tree. split; [exact Hfor |]. split; [exact Hshape |].
    intros i j Hij. apply Hget; lia.
Qed.

Lemma vanillaTree_node_spec (N : nat) (r dt p : R) (Vc Vp : nat -> nat -> nat -> R)
  (j i : nat) (call put : matrix) :
  (forall k i j, Vc (S k) i j
     = exp (- r * dt) * (p * Vc k i (j + 1)%nat + (1 - p) * Vc k (i + 1)%nat (j + 1)%nat)) ->
  (forall k i j, Vp (S k) i j
     = exp (- r * dt) * (p * Vp k i (j + 1)%nat + (1 - p) * Vp k (i + 1)%nat (j + 1)%nat)) ->
  (j < N)%nat -> (i <= j)%nat ->
  shape (N + 1) (N + 1) call -> shape (N + 1) (N + 1) put ->
  mget call i (j + 1) = Ok (Vc (N - (j + 1))%nat i (j + 1)%nat) ->
  mget call (i + 1) (j + 1) = Ok (Vc (N - (j + 1))%nat (i + 1)%nat (j + 1)%nat) ->
  mget put i (j + 1) = Ok (Vp (N - (j + 1))%nat i (j + 1)%nat) ->
  mget put (i + 1) (j + 1) = Ok (Vp (N - (j + 1))%nat (i + 1)%nat (j + 1)%nat) ->
  exists call' put',
    Vanilla.vanillaTree_node r dt p j i (call, put) = Ok (call', put')
    /\ shape (N + 1) (N + 1) call' /\ shape (N + 1) (N + 1) put'
    /\ mget call' i j = Ok (Vc (N - j)%nat i j)
    /\ mget put' i j = Ok (Vp (N - j)%nat i j)
    /\ (forall i' j', i' <> i \/ j' <> j -> mget call' i' j' = mget call i' j')
    /\ (forall i' j', i' <> i \/ j' <> j -> mget put' i' j' = mget put i' j').
Proof.
  intros HVc HVp Hj Hi Hc Hp Hcu Hcd Hpu Hpd.
  unfold Vanilla.vanillaTree_node. rewrite Hcu, Hcd. res_simpl.
  destruct (mset_spec (N + 1) (N + 1) call i j
              (exp (- r * dt) * (p * Vc (N - (j + 1))%nat i (j + 1)%nat
                 + (1 - p) * Vc (N - (j + 1))%nat (i + 1)%nat (j + 1)%nat)) Hc)
    as [call' [-> [Hc' [Hchit Hcmiss]]]]; [lia | lia |].
  rewrite Hpu, Hpd.
  destruct (mset_spec (N + 1) (N + 1) put i j
              (exp (- r * dt) * (p * Vp (N - (j + 1))%nat i (j + 1)%nat
                 + (1 - p) * Vp (N - (j + 1))%nat (i + 1)%nat (j + 1)%nat)) Hp)
    as [put' [-> [Hp' [Hphit Hpmiss]]]]; [lia | lia |].
  exists call', put'. split; [reflexivity |].
  replace (N - j)%nat with (S (N - (j + 1))) by lia.
  rewrite HVc, HVp. auto 10.
Qed.

Lemma vanillaTree_backward (N : nat) (r dt p : R) (Vc Vp : nat -> nat -> nat -> R)
  (call put : matrix) :
  (forall k i j, Vc (S k) i j
     = exp (- r * dt) * (p * Vc k i (j + 1)%nat + (1 - p) * Vc k (i + 1)%nat (j + 1)%nat)) ->
  (forall k i j, Vp (S k) i j
     = exp (- r * dt) * (p * Vp k i (j + 1)%nat + (1 - p) * Vp k (i + 1)%nat (j + 1)%nat)) ->
  filled N Vc N call -> filled N Vp N put ->
  exists cp,
    for_ (range_down N) (fun j cp =>
      for_ (range (j + 1)) (Vanilla.vanillaTree_node r dt p j) cp) (call, put) = Ok cp
    /\ filled N Vc 0 cp.1 /\ filled N Vp 0 cp.2.
Proof.
  intros HVc HVp Hcall Hput.
  apply (for_range_down_inv
    (fun j (cp : matrix * matrix) => filled N Vc j cp.1 /\ filled N Vp j cp.2)).
  - split; assumption.
  - intros j [c0 p0] Hj [[Hcs Hc] [Hps Hp]]. cbn [fst snd] in *.
    destruct (for_range_inv
      (fun i (cp : matrix * matrix) =>
         (shape (N + 1) (N + 1) cp.1 /\ shape (N + 1) (N + 1) cp.2)
         /\ (forall i' j', (S j <= j' <= N)%nat -> (i' <= j')%nat ->
               mget cp.1 i' j' = Ok (Vc (N - j')%nat i' j')
               /\ mget cp.2 i' j' = Ok (Vp (N - j')%nat i' j'))
         /\ (forall i', (i' < i)%nat ->
               mget cp.1 i' j = Ok (Vc (N - j)%nat i' j)
               /\ mget cp.2 i' j = Ok (Vp (N - j)%nat i' j)))
      (Vanilla.vanillaTree_node r dt p j) (j + 1) (c0, p0))
      as [[c1 p1] [Hfor [[Hcs1 Hps1] [Hold Hnew]]]].
    + cbn [fst snd]. split; [split; assumption |]. split.
      * intros i' j' Hj' Hi'. split; [apply Hc | apply Hp]; lia.
      * intros; lia.
    + intros i [c p0'] Hi [[Hcs' Hps'] [Hold Hcol]]. cbn [fst snd] in *.
      destruct (vanillaTree_node_spec N r dt p Vc Vp j i c p0' HVc HVp)
        as (c' & p' & Hnode & Hcs'' & Hps'' & Hchit & Hphit & Hcmiss & Hpmiss);
        try assumption; try lia;
        try (apply Hold; lia).
      exists (c', p'). split; [exact Hnode |]. cbn [fst snd].
      split; [split; assumption |]. split.
      * intros i' j' Hj' Hi'. rewrite Hcmiss, Hpmiss by lia. apply Hold; lia.
      * intros i' Hi'. destruct (decide (i' = i)) as [-> | Hne].
        -- split; assumption.
        -- rewrite Hcmiss, Hpmiss by lia. apply Hcol. lia.
    + cbn [fst snd] in *. exists (c1, p1). split; [exact Hfor |]. cbn [fst snd].
      split; (split; [assumption |]); intros i j' Hj' Hi;
        (destruct (decide (j' = j)) as [-> | Hne];
         [apply Hnew; lia | apply Hold; lia]).
Qed.

Lemma terminal_column (N : nat) (K : R) (f : R -> R) (price : nat -> nat -> R)
  (tree : matrix) :
  shape (N + 1) (N + 1) tree ->
  (forall i j, (i <= j <= N)%nat -> mget tree i j = Ok (price i j)) ->
  exists col m,
    mcol tree N = Ok col
    /\ np_maximum (np_zeros (N + 1)) (map f col)
       = Ok (zip_with Rmax (np_zeros (N + 1)) (map f col))
    /\ mset_col (np_zeros2 (N + 1) (N + 1)) N
         (zip_with Rmax (np_zeros (N + 1)) (map f col)) = Ok m
    /\ shape (N + 1) (N + 1) m
    /\ forall i, (i <= N)%nat -> mget m i N = Ok (Rmax 0 (f (price i N))).
Proof.
  intros Htree Hget.
  destruct (mcol_spec (N + 1) (N + 1) tree N Htree ltac:(lia)) as [col [Hcol [Hlen Hcolget]]].
  assert (Hzlen : length (zip_with Rmax (np_zeros (N + 1)) (map f col)) = (N + 1)%nat).
  { rewrite length_zip_with, length_map. unfold np_zeros. rewrite length_replicate. lia. }
  destruct (mset_col_spec (N + 1) (N + 1) (np_zeros2 (N + 1) (N + 1)) N
              (zip_with Rmax (np_zeros (N + 1)) (map f col)))
    as [m [Hset [Hm [Hmget _]]]]; [apply shape_zeros | lia | exact Hzlen |].
  exists col, m. split; [exact Hcol |]. split; [| split; [exact Hset | split; [exact Hm |]]].
  - unfold np_maximum. apply np_zip_ok.
    rewrite length_map. unfold np_zeros. rewrite length_replicate. lia.
  - intros i Hi. apply Hmget.
    destruct (lookup_lt_is_Some_2 col i) as [x Hx]; [lia |].
    pose proof (Hcolget i x Hx) as Hx'. rewrite Hget in Hx' by lia.
    injection Hx' as ->.
    rewrite lookup_zip_with. unfold np_zeros.
    rewrite lookup_replicate_2 by lia. rewrite list_lookup_fmap, Hx. reflexivity.
Qed.

End Lattice.

(** C5: for [N >= 1] the lattice pricer follows the algorithm of the
    specification.  With [u = e^(sigma*sqrt(T/N))], [d = 1/u] and
    [p = (e^(r*T/N) - d)/(u - d)], the forward pass stores the node price
    [S0*u^(j-i)*d^i] at each [i <= j <= N], and the function returns the
    root value of the backward induction
    [value = e^(-r*T/N)*(p*value_up + (1-p)*value_down)] started from the
    terminal payoffs [max(S - K, 0)] (call) or [max(K - S, 0)] (put). *)
Theorem vanillaTree_follows_lattice_algorithm
  (S K T : R) (N : nat) (sig r d : R) (c : bool) :
  (1 <= N)%nat -> 0 < S -> 0 < K -> 0 < T -> 0 < sig ->
  (exists tree,
     Vanilla.vanillaTree_asset S N (Spec.lattice_u T N sig) (Spec.lattice_d T N sig)
       (np_zeros2 (N + 1) (N + 1)) = Ok tree
     /\ forall i j, (i <= j <= N)%nat ->
          mget tree i j
          = Ok (S * Spec.lattice_u T N sig ^ (j - i) * Spec.lattice_d T N sig ^ i))
  /\ Vanilla.vanillaTree S K T N sig r d c = Ok (Spec.treePrice S K T N sig r c).
Proof.
  intros HN _ _ _ _.
  destruct (vanillaTree_asset_spec S N (Spec.lattice_u T N sig) (Spec.lattice_d T N sig))
    as [tree [Htree [Hshape Hprice]]].
  split; [exists tree; split; [exact Htree | exact Hprice] |].
  unfold Vanilla.vanillaTree.
  rewrite pdiv_ok by (apply not_0_INR; lia). res_simpl.
  fold (Spec.lattice_u T N sig). fold (Spec.lattice_d T N sig).
  fold (Spec.lattice_p T N sig r).
  rewrite Htree.
  destruct (terminal_column N K (fun x => x - K) _ tree Hshape Hprice)
    as (col & call & Hcol & Hcmax & Hcset & Hcs & Hcall).
  destruct (terminal_column N K (fun x => - x + K) _ tree Hshape Hprice)
    as (col' & put & Hcol' & Hpmax & Hpset & Hps & Hput).
  rewrite Hcol in Hcol'. injection Hcol' as <-.
  rewrite Hcol. res_simpl. rewrite Hcmax, Hcset, Hpmax, Hpset.
  set (price := Spec.node_price S (Spec.lattice_u T N sig) (Spec.lattice_d T N sig)) in *.
  set (p := Spec.lattice_p T N sig r).
  set (dt := T / INR N).
  set (Vc := Spec.node_value (Spec.payoff true K) price (exp (- (r * dt))) p).
  set (Vp := Spec.node_value (Spec.payoff false K) price (exp (- (r * dt))) p).
  destruct (vanillaTree_backward N r dt p Vc Vp call put) as [cp [-> [[_ Hc] [_ Hp]]]].
  - intros k i j. unfold Vc. cbn [Spec.node_value].
    now replace (- r * dt) with (- (r * dt)) by ring.
  - intros k i j. unfold Vp. cbn [Spec.node_value].
    now replace (- r * dt) with (- (r * dt)) by ring.
  - split; [exact Hcs |]. intros i j Hj Hi.
    assert (j = N) as -> by lia. rewrite Hcall by lia.
    rewrite Nat.sub_diag. unfold Vc. cbn [Spec.node_value Spec.payoff].
    now rewrite Rmax_comm.
  - split; [exact Hps |]. intros i j Hj Hi.
    assert (j = N) as -> by lia. rewrite Hput by lia.
    rewrite Nat.sub_diag. unfold Vp. cbn [Spec.node_value Spec.payoff].
    replace (- price i N + K) with (K - price i N) by ring.
    now rewrite Rmax_comm.
  - unfold Spec.treePrice. fold price p dt.
    destruct c.
    + rewrite Hc by lia. now rewrite Nat.sub_0_r.
    + rewrite Hp by lia. now rewrite Nat.sub_0_r.
Qed.

Lemma vanillaTree_follows_lattice_algorithm_witness :
  (exists tree,
     Vanilla.vanillaTree_asset 100 200 (Spec.lattice_u 1 200 (2 / 10))
       (Spec.lattice_d 1 200 (2 / 10)) (np_zeros2 (200 + 1) (200 + 1)) = Ok tree
     /\ forall i j, (i <= j <= 200)%nat ->
          mget tree i j
          = Ok (100 * Spec.lattice_u 1 200 (2 / 10) ^ (j - i)
                * Spec.lattice_d 1 200 (2 / 10) ^ i))
  /\ Vanilla.vanillaTree 100 100 1 200 (2 / 10) (4 / 100) 0 true
     = Ok (Spec.treePrice 100 100 1 200 (2 / 10) (4 / 100) true).
Proof.
  apply (vanillaTree_follows_lattice_algorithm 100 100 1 200 (2 / 10) (4 / 100) 0 true);
    [lia | lra ..].
Defined.

(** ** The analytical up-and-out pricer *)

Lemma d1_ok (S K r sigma tau : R) :
  K <> 0 -> UpAndOut.d1 S K r sigma tau = Ok (Spec.d1 S K tau sigma r).
Proof.
  intros HK. unfold UpAndOut.d1. rewrite (pdiv_ok _ _ HK). reflexivity.
Qed.

Lemma d2_ok (S K r sigma tau : R) :
  K <> 0 -> UpAndOut.d2 S K r sigma tau = Ok (Spec.d2 S K tau sigma r).
Proof.
  intros HK. unfold UpAndOut.d2. rewrite (d1_ok _ _ _ _ _ HK). reflexivity.
Qed.

(** What the function computes wherever no division fails: the vanilla
    part is taken at the module-level spot [S], the barrier part at the
    argument [S0]. *)
Lemma analytical_value_Call_Up_Out_value
  (Phi : R -> R) (g : UpAndOut.globals) (S0 K L r sigma T : R) :
  S0 <> 0 -> K <> 0 -> L <> 0 -> sigma <> 0 ->
  UpAndOut.analytical_value_Call_Up_Out Phi g S0 K L r sigma T
  = Ok (Spec.call_value Phi (UpAndOut.g_S g) K T sigma r
        + Spec.barrier_terms Phi S0 K L T sigma r).
Proof.
  intros HS0 HK HL Hsig.
  assert (Hsig2 : sigma ^ 2 <> 0) by (apply pow_nonzero; exact Hsig).
  assert (HSK : S0 * K <> 0) by (apply Rmult_integral_contrapositive_currified; assumption).
  unfold UpAndOut.analytical_value_Call_Up_Out.
  rewrite (pdiv_ok _ _ Hsig2), (pdiv_ok _ _ HL), (pdiv_ok _ _ HS0), (pdiv_ok _ _ HSK).
  rewrite (d1_ok _ _ _ _ _ HK), (d2_ok _ _ _ _ _ HK).
  res_simpl. f_equal.
  unfold Spec.call_value, Spec.barrier_terms, Spec.x1, Spec.y1, Spec.y, Spec.lambda.
  replace (- r * T) with (- (r * T)) by ring. ring.
Qed.

(** Called on the module-level spot itself, as the notebook does, the
    function is the closed form of the specification. *)
Lemma analytical_value_Call_Up_Out_at_spot
  (Phi : R -> R) (g : UpAndOut.globals) (K L r sigma T : R) :
  UpAndOut.g_S g <> 0 -> K <> 0 -> L <> 0 -> sigma <> 0 ->
  UpAndOut.analytical_value_Call_Up_Out Phi g (UpAndOut.g_S g) K L r sigma T
  = Ok (Spec.upAndOutCallPrice Phi (UpAndOut.g_S g) K L T sigma r).
Proof.
  intros HS HK HL Hsig.
  now rewrite analytical_value_Call_Up_Out_value.
Qed.

Lemma call_value_lower (Phi : R -> R) (S0 K T sigma r : R) :
  cdf_monotone Phi -> cdf_unit Phi -> cdf_median Phi ->
  0 <= S0 -> 0 <= K -> 0 <= Spec.d1 S0 K T sigma r ->
  S0 / 2 - K * exp (- (r * T)) <= Spec.call_value Phi S0 K T sigma r.
Proof.
  intros Hmono Hunit Hmed HS HK Hd1. unfold Spec.call_value.
  pose proof (Hmono _ _ Hd1) as H1. rewrite Hmed in H1.
  pose proof (Hunit (Spec.d2 S0 K T sigma r)) as H2.
  pose proof (exp_pos (- (r * T))) as He.
  assert (0 <= K * exp (- (r * T))) by (apply Rmult_le_pos; lra).
  nra.
Qed.

Lemma call_value_upper (Phi : R -> R) (S0 K T sigma r : R) :
  cdf_unit Phi -> 0 <= S0 -> 0 <= K ->
  Spec.call_value Phi S0 K T sigma r <= S0.
Proof.
  intros Hunit HS HK. unfold Spec.call_value.
  pose proof (Hunit (Spec.d1 S0 K T sigma r)) as H1.
  pose proof (Hunit (Spec.d2 S0 K T sigma r)) as H2.
  pose proof (exp_pos (- (r * T))) as He.
  assert (0 <= K * exp (- (r * T))) by (apply Rmult_le_pos; lra).
  nra.
Qed.

(** C1, evaluated: with the notebook's [S = 100], the call
    [analytical_value_Call_Up_Out(10, 1, 150, 0, 1, 1)] returns a value at
    least 39 above the closed form written in [S0 = 10] throughout,
    because its first two terms are taken at the module-level [S]. *)
Theorem analytical_value_Call_Up_Out_reads_global (Phi : R -> R) :
  cdf_monotone Phi -> cdf_unit Phi -> cdf_median Phi ->
  exists v : R,
    UpAndOut.analytical_value_Call_Up_Out Phi UpAndOut.notebook_globals 10 1 150 0 1 1
      = Ok v
    /\ Spec.upAndOutCallPrice Phi 10 1 150 1 1 0 + 39 <= v.
Proof.
  intros Hmono Hunit Hmed.
  eexists. split.
  - apply analytical_value_Call_Up_Out_value; lra.
  - unfold Spec.upAndOutCallPrice. cbn [UpAndOut.g_S UpAndOut.notebook_globals].
    assert (Hd1 : 0 <= Spec.d1 100 1 1 1 0).
    { unfold Spec.d1. rewrite sqrt_1.
      assert (0 < ln (100 / 1)).
      { rewrite <- ln_1. apply ln_increasing; lra. }
      lra. }
    pose proof (call_value_lower Phi 100 1 1 1 0 Hmono Hunit Hmed
                  ltac:(lra) ltac:(lra) Hd1) as Hlo.
    pose proof (call_value_upper Phi 10 1 1 1 0 Hunit ltac:(lra) ltac:(lra)) as Hup.
    replace (exp (- (0 * 1))) with 1 in Hlo by (rewrite Rmult_0_l, Ropp_0, exp_0; reflexivity).
    lra.
Qed.

Lemma analytical_value_Call_Up_Out_reads_global_witness :
  exists v : R,
    UpAndOut.analytical_value_Call_Up_Out logistic UpAndOut.notebook_globals 10 1 150 0 1 1
      = Ok v
    /\ Spec.upAndOutCallPrice logistic 10 1 150 1 1 0 + 39 <= v.
Proof.
  apply (analytical_value_Call_Up_Out_reads_global logistic
           logistic_monotone logistic_unit logistic_median).
Defined.

(** C9 as stated fails: with the barrier at the spot, [L = S0 = 100], the
    pricer raises nothing. *)
Lemma barrier_at_spot_not_rejected :
  ~ (forall (Phi : R -> R) (g : UpAndOut.globals) (S0 K L r sigma T : R),
       L <= S0 ->
       exists e : exn,
         UpAndOut.analytical_value_Call_Up_Out Phi g S0 K L r sigma T = Raise e).
Proof.
  intros H.
  destruct (H logistic UpAndOut.notebook_globals 100 100 100 (8 / 100) (3 / 10) 1
              ltac:(lra)) as [e He].
  rewrite analytical_value_Call_Up_Out_value in He by lra.
  discriminate He.
Qed.

Lemma Rpower_le_one (x y : R) : 0 < x <= 1 -> 0 <= y -> Rpower x y <= 1.
Proof.
  intros [Hx0 Hx1] Hy. unfold Rpower. rewrite <- exp_0.
  assert (Hln : ln x <= 0).
  { rewrite <- ln_1. destruct Hx1 as [Hlt | ->]; [| lra].
    left. now apply ln_increasing. }
  assert (Hprod : y * ln x <= 0).
  { replace 0 with (y * 0) by ring. now apply Rmult_le_compat_l. }
  destruct Hprod as [Hlt | ->]; [left; now apply exp_increasing | lra].
Qed.

(** C9, amended: the pricer does not validate the barrier against the
    spot.  An input with the barrier at or below the spot,
    [0 < L <= S0], is priced like any other: with positive strike,
    volatility, maturity and module-level spot, and with
    [r >= sigma^2/2], the call returns a number instead of raising.  Under
    these hypotheses both powers of [L/S0] taken by the pricer are at
    most 1. *)
Theorem analytical_value_Call_Up_Out_accepts_low_barrier
  (Phi : R -> R) (g : UpAndOut.globals) (S0 K L r sigma T : R) :
  0 < L -> L <= S0 -> 0 < K -> 0 < sigma -> 0 < T -> 0 < UpAndOut.g_S g ->
  sigma ^ 2 / 2 <= r ->
  (exists v : R, UpAndOut.analytical_value_Call_Up_Out Phi g S0 K L r sigma T = Ok v)
  /\ Rpower (L / S0) (2 * Spec.lambda sigma r) <= 1
  /\ Rpower (L / S0) (2 * Spec.lambda sigma r - 2) <= 1.
Proof.
  intros HL HLS HK Hsig _ _ Hr.
  split.
  { eexists. apply analytical_value_Call_Up_Out_value; lra. }
  assert (Hbase : 0 < L / S0 <= 1).
  { split; [apply Rdiv_lt_0_compat; lra |].
    apply (Rmult_le_reg_r S0); [lra |]. unfold Rdiv.
    rewrite Rmult_assoc, Rinv_l by lra. lra. }
  assert (Hs2 : 0 < sigma ^ 2) by (apply pow_lt; exact Hsig).
  assert (Hexp : 0 <= 2 * Spec.lambda sigma r - 2).
  { unfold Spec.lambda.
    replace (2 * ((r + sigma ^ 2 / 2) / sigma ^ 2) - 2)
      with (2 * (r - sigma ^ 2 / 2) / sigma ^ 2) by (field; lra).
    unfold Rdiv. apply Rmult_le_pos; [lra |].
    left. now apply Rinv_0_lt_compat. }
  split; apply Rpower_le_one; try exact Hbase; lra.
Qed.

Lemma analytical_value_Call_Up_Out_accepts_low_barrier_witness :
  (exists v : R,
     UpAndOut.analytical_value_Call_Up_Out logistic UpAndOut.notebook_globals
       100 100 50 (8 / 100) (3 / 10) 1 = Ok v)
  /\ Rpower (50 / 100) (2 * Spec.lambda (3 / 10) (8 / 100)) <= 1
  /\ Rpower (50 / 100) (2 * Spec.lambda (3 / 10) (8 / 100) - 2) <= 1.
Proof.
  apply (analytical_value_Call_Up_Out_accepts_low_barrier logistic
           UpAndOut.notebook_globals 100 100 50 (8 / 100) (3 / 10) 1);
    cbn [UpAndOut.g_S UpAndOut.notebook_globals pow]; lra.
Defined.

(** ** The analytical CVA cross-check *)

Lemma uncorr_cva_value (Phi : R -> R) (g : UpAndOut.globals) :
  UpAndOut.g_debt g <> 0 -> UpAndOut.g_K g <> 0 ->
  UpAndOut.uncorr_cva Phi g
  = Ok ((1 - UpAndOut.g_recovery g)
        * Phi (- Spec.d2 (UpAndOut.g_V g) (UpAndOut.g_debt g) (UpAndOut.g_T g)
                         (UpAndOut.g_sigma g) (UpAndOut.g_r g))
        * Spec.call_value Phi (UpAndOut.g_S g) (UpAndOut.g_K g) (UpAndOut.g_T g)
                          (UpAndOut.g_sigma g) (UpAndOut.g_r g)).
Proof.
  intros Hdebt HK.
  unfold UpAndOut.uncorr_cva, UpAndOut.default_prob, UpAndOut.C.
  rewrite (d2_ok _ _ _ _ _ Hdebt), (d1_ok _ _ _ _ _ HK), (d2_ok _ _ _ _ _ HK).
  res_simpl. f_equal. unfold Spec.call_value.
  replace (- UpAndOut.g_r g * UpAndOut.g_T g)
    with (- (UpAndOut.g_r g * UpAndOut.g_T g)) by ring.
  reflexivity.
Qed.

Lemma call_value_pos (Phi : R -> R) (S0 T sigma r : R) :
  cdf_increasing Phi -> cdf_unit Phi ->
  0 < S0 -> 0 < T -> 0 < sigma -> 0 <= r ->
  0 < Spec.call_value Phi S0 S0 T sigma r.
Proof.
  intros Hinc Hunit HS HT Hsig Hr. unfold Spec.call_value.
  assert (Hlt : Spec.d2 S0 S0 T sigma r < Spec.d1 S0 S0 T sigma r).
  { unfold Spec.d2. pose proof (sqrt_lt_R0 T HT).
    assert (0 < sigma * sqrt T) by (apply Rmult_lt_0_compat; lra). lra. }
  apply Hinc in Hlt.
  pose proof (Hunit (Spec.d2 S0 S0 T sigma r)) as H2.
  assert (He : exp (- (r * T)) <= 1).
  { rewrite <- exp_0. destruct (Req_dec (r * T) 0) as [E | NE].
    - rewrite E, Ropp_0. lra.
    - left. apply exp_increasing.
      assert (0 <= r * T) by (apply Rmult_le_pos; lra). lra. }
  set (e := exp (- (r * T))) in *.
  set (P1 := Phi (Spec.d1 S0 S0 T sigma r)) in *.
  set (P2 := Phi (Spec.d2 S0 S0 T sigma r)) in *.
  assert (He2 : e * P2 <= 1 * P2) by (apply Rmult_le_compat_r; lra).
  replace (S0 * P1 - S0 * e * P2) with (S0 * (P1 - e * P2)) by ring.
  apply Rmult_lt_0_compat; lra.
Qed.

(** C7, evaluated on the notebook's parameters ([sigma = 0.3] for the
    asset, [sigma2 = 0.25] for the firm value): [uncorr_cva] is computed
    with the asset volatility inside [d2(V, debt, ...)], and comes out
    strictly above the value taken at the firm-value volatility. *)
Theorem uncorr_cva_uses_asset_volatility (Phi : R -> R) :
  cdf_increasing Phi -> cdf_unit Phi ->
  exists v : R,
    UpAndOut.uncorr_cva Phi UpAndOut.notebook_globals = Ok v
    /\ v = (1 - 25 / 100) * Phi (- Spec.d2 200 175 1 (3 / 10) (8 / 100))
           * Spec.call_value Phi 100 100 1 (3 / 10) (8 / 100)
    /\ (1 - 25 / 100) * Phi (- Spec.d2 200 175 1 (25 / 100) (8 / 100))
       * Spec.call_value Phi 100 100 1 (3 / 10) (8 / 100) < v.
Proof.
  intros Hinc Hunit.
  eexists. split; [| split; [reflexivity |]].
  - rewrite uncorr_cva_value; cbn [UpAndOut.g_debt UpAndOut.g_K UpAndOut.notebook_globals]; [| lra ..].
    reflexivity.
  - assert (HC : 0 < Spec.call_value Phi 100 100 1 (3 / 10) (8 / 100))
      by (apply call_value_pos; try assumption; lra).
    assert (Hd : Spec.d2 200 175 1 (3 / 10) (8 / 100)
                 < Spec.d2 200 175 1 (25 / 100) (8 / 100)).
    { unfold Spec.d2, Spec.d1. rewrite sqrt_1.
      assert (Hln : 0 < ln (200 / 175)).
      { rewrite <- ln_1. apply ln_increasing; lra. }
      set (a := ln (200 / 175)) in *.
      replace ((a + (8 / 100 + (3 / 10) ^ 2 / 2) * 1) / (3 / 10 * 1) - 3 / 10 * 1)
        with (a * (10 / 3) + 7 / 60) by field.
      replace ((a + (8 / 100 + (25 / 100) ^ 2 / 2) * 1) / (25 / 100 * 1) - 25 / 100 * 1)
        with (a * 4 + 39 / 200) by field.
      lra. }
    assert (HPhi : Phi (- Spec.d2 200 175 1 (25 / 100) (8 / 100))
                   < Phi (- Spec.d2 200 175 1 (3 / 10) (8 / 100)))
      by (apply Hinc; lra).
    nra.
Qed.

Lemma uncorr_cva_uses_asset_volatility_witness :
  exists v : R,
    UpAndOut.uncorr_cva logistic UpAndOut.notebook_globals = Ok v
    /\ v = (1 - 25 / 100) * logistic (- Spec.d2 200 175 1 (3 / 10) (8 / 100))
           * Spec.call_value logistic 100 100 1 (3 / 10) (8 / 100)
    /\ (1 - 25 / 100) * logistic (- Spec.d2 200 175 1 (25 / 100) (8 / 100))
       * Spec.call_value logistic 100 100 1 (3 / 10) (8 / 100) < v.
Proof.
  apply (uncorr_cva_uses_asset_volatility logistic logistic_increasing logistic_unit).
Defined.

(** ** The knock-out rule of the two Monte Carlo payoffs *)

(** The payoff of the CVA cell on one path: zero when the running maximum
    reaches the barrier, the call payoff otherwise. *)
Lemma cva_final_values_row (g : UpAndOut.globals) (row : list R) (ST mx : R) :
  last row = Some ST -> np_max row = Ok mx ->
  UpAndOut.cva_final_values g [row]
  = Ok [if Rge_dec mx (UpAndOut.g_L g) then 0 else Rmax (ST - UpAndOut.g_K g) 0].
Proof.
  intros Hlast Hmax. unfold UpAndOut.cva_final_values.
  cbn [mcol_last np_max_axis1]. rewrite Hlast, Hmax. res_simpl.
  unfold np_zip. cbn [map length zip_with].
  destruct (decide (1%nat = 1%nat)) as [_ | NE]; [| contradiction].
  do 2 f_equal.
  destruct (Rge_dec mx (UpAndOut.g_L g)); [reflexivity |].
  destruct (Rlt_dec (ST - UpAndOut.g_K g) 0).
  - rewrite Rmax_right by lra. reflexivity.
  - rewrite Rmax_left by lra. reflexivity.
Qed.

(** The payoff of the stand-alone Monte Carlo cell on one path: the
    terminal price is zeroed only when the running maximum is strictly
    above the barrier. *)
Lemma upOutCall_val_row_value (g : UpAndOut.globals) (row : list R) (ST mx : R) :
  last row = Some ST -> np_max row = Ok mx ->
  UpAndOut.upOutCall_val_row g row
  = Ok (exp (- UpAndOut.g_r g * UpAndOut.g_T g)
        * Rmax ((if Rlt_dec (UpAndOut.g_L g) mx then 0 else ST) - UpAndOut.g_K g) 0).
Proof.
  intros Hlast Hmax. unfold UpAndOut.upOutCall_val_row.
  rewrite Hlast, Hmax. reflexivity.
Qed.

(** Away from the barrier itself the two cells agree (the stand-alone one
    discounts, the CVA one discounts later). *)
Lemma upOutCall_val_row_agrees (g : UpAndOut.globals) (row : list R) (ST mx x : R) :
  last row = Some ST -> np_max row = Ok mx ->
  0 <= UpAndOut.g_K g -> mx <> UpAndOut.g_L g ->
  UpAndOut.cva_final_values g [row] = Ok [x] ->
  UpAndOut.upOutCall_val_row g row
  = Ok (exp (- UpAndOut.g_r g * UpAndOut.g_T g) * x).
Proof.
  intros Hlast Hmax HK Hne Hcva.
  rewrite (cva_final_values_row g row ST mx Hlast Hmax) in Hcva.
  injection Hcva as <-.
  rewrite (upOutCall_val_row_value g row ST mx Hlast Hmax).
  do 2 f_equal.
  destruct (Rlt_dec (UpAndOut.g_L g) mx), (Rge_dec mx (UpAndOut.g_L g)); try lra.
  rewrite Rmax_right by lra. reflexivity.
Qed.

(** Every round of the stand-alone Monte Carlo loop produces its estimate:
    each row of [path] starts with the spot, so it has a last entry and a
    maximum. *)
Lemma upOutCall_val_ok (g : UpAndOut.globals) (path : matrix) :
  Forall (fun row : list R => row <> []) path ->
  exists l, UpAndOut.upOutCall_val g path = Ok l /\ length l = length path.
Proof.
  induction 1 as [| row path Hrow _ [l [IH Hlen]]]; cbn [UpAndOut.upOutCall_val].
  - exists []. split; reflexivity.
  - destruct (last row) as [ST |] eqn:Hlast; [| apply last_None in Hlast; contradiction].
    destruct row as [| x row]; [contradiction |].
    rewrite (upOutCall_val_row_value g (x :: row) ST (foldl Rmax x row) Hlast eq_refl).
    rewrite IH. res_simpl. eexists. split; [reflexivity | cbn; now rewrite Hlen].
Qed.

Lemma upOutCall_round_ok (g : UpAndOut.globals) (Z : matrix) :
  exists v, UpAndOut.upOutCall_round g Z = Ok v.
Proof.
  unfold UpAndOut.upOutCall_round.
  destruct (upOutCall_val_ok g (UpAndOut.upOutCall_path g Z)) as [l [-> _]].
  - unfold UpAndOut.upOutCall_path. apply Forall_forall. intros row Hin.
    apply list_elem_of_fmap in Hin as [row' [-> _]]. discriminate.
  - eexists. reflexivity.
Qed.

(** C2, evaluated: on the path [100, 150, 120], whose maximum equals the
    barrier [L = 150], the stand-alone Monte Carlo cell pays the discounted
    call payoff [20 * e^(-rT)], which is positive, while the CVA cell
    knocks the same path out. *)
Theorem upOutCall_keeps_path_touching_barrier :
  UpAndOut.upOutCall_val_row UpAndOut.notebook_globals [100; 150; 120]
    = Ok (exp (- (8 / 100) * 1) * 20)
  /\ 0 < exp (- (8 / 100) * 1) * 20
  /\ UpAndOut.cva_final_values UpAndOut.notebook_globals [[100; 150; 120]] = Ok [0].
Proof.
  assert (Hmax : np_max [100; 150; 120] = Ok 150).
  { cbn [np_max foldl]. rewrite (Rmax_right 100 150), (Rmax_left 150 120) by lra.
    reflexivity. }
  split; [| split].
  - rewrite (upOutCall_val_row_value _ [100; 150; 120] 120 150 eq_refl Hmax).
    cbn [UpAndOut.g_L UpAndOut.g_K UpAndOut.g_r UpAndOut.g_T UpAndOut.notebook_globals].
    destruct (Rlt_dec 150 150) as [Hlt | _]; [lra |].
    rewrite Rmax_left by lra. do 2 f_equal. lra.
  - pose proof (exp_pos (- (8 / 100) * 1)). lra.
  - rewrite (cva_final_values_row _ [100; 150; 120] 120 150 eq_refl Hmax).
    cbn [UpAndOut.g_L UpAndOut.notebook_globals].
    destruct (Rge_dec 150 150) as [_ | Hn]; [reflexivity | lra].
Qed.

(** ** The Monte Carlo CVA estimate *)

Section CvaBounds.

Lemma mcol_last_ok (m : matrix) :
  Forall (fun row : list R => row <> []) m ->
  exists l, mcol_last m = Ok l /\ length l = length m.
Proof.
  induction 1 as [| row m Hrow _ [l [IH Hlen]]]; cbn [mcol_last].
  - exists []. split; reflexivity.
  - destruct (last row) as [x |] eqn:E.
    + rewrite IH. exists (x :: l). split; [reflexivity | cbn; now rewrite Hlen].
    + apply last_None in E. contradiction.
Qed.

Lemma np_max_axis1_ok (m : matrix) :
  Forall (fun row : list R => row <> []) m ->
  exists l, np_max_axis1 m = Ok l /\ length l = length m.
Proof.
  induction 1 as [| row m Hrow _ [l [IH Hlen]]]; cbn [np_max_axis1].
  - exists []. split; reflexivity.
  - destruct row as [| x row]; [contradiction |].
    cbn [np_max]. rewrite IH. res_simpl.
    eexists. split; [reflexivity | cbn; now rewrite Hlen].
Qed.

Lemma knock_out_nonneg (L : R) (xs mxs : list R) :
  Forall (fun x => 0 <= x) xs ->
  Forall (fun x => 0 <= x)
         (zip_with (fun x mx => if Rge_dec mx L then 0 else x) xs mxs).
Proof.
  intros H. revert mxs.
  induction H as [| x xs Hx _ IH]; intros [| mx mxs]; cbn [zip_with]; try constructor.
  - destruct (Rge_dec mx L); lra.
  - apply IH.
Qed.

Lemma clip_nonneg (xs : list R) :
  Forall (fun x => 0 <= x) (map (fun x => if Rlt_dec x 0 then 0 else x) xs).
Proof.
  induction xs as [| x xs IH]; cbn [map]; constructor; [| exact IH].
  destruct (Rlt_dec x 0); lra.
Qed.

Lemma cva_final_values_ok (g : UpAndOut.globals) (paths : matrix) :
  Forall (fun row : list R => row <> []) paths ->
  exists fv, UpAndOut.cva_final_values g paths = Ok fv
             /\ length fv = length paths
             /\ Forall (fun x => 0 <= x) fv.
Proof.
  intros Hne. unfold UpAndOut.cva_final_values.
  destruct (mcol_last_ok paths Hne) as [lc [-> Hlc]].
  destruct (np_max_axis1_ok paths Hne) as [mx [-> Hmx]].
  res_simpl. rewrite np_zip_ok by (rewrite !length_map; congruence).
  eexists. split; [reflexivity | split].
  - rewrite length_zip_with, !length_map. lia.
  - apply knock_out_nonneg, clip_nonneg.
Qed.

Lemma loss_sum_bounds (c disc debt : R) (vs xs : list R) :
  0 <= c <= disc ->
  Forall (fun x => 0 <= x) xs ->
  0 <= np_sum (zip_with (fun v x => c * (if Rlt_dec v debt then 1 else 0) * x) vs xs)
    <= np_sum (map (fun x => x * disc) xs).
Proof.
  intros Hc H. revert vs.
  induction H as [| x xs Hx _ IH]; intros [| v vs]; cbn [zip_with map np_sum foldr].
  - lra.
  - lra.
  - fold (np_sum (map (fun x => x * disc) xs)).
    destruct (IH []) as [_ IH']. cbn [zip_with np_sum foldr] in IH'. nra.
  - fold (np_sum (map (fun x => x * disc) xs)).
    fold (np_sum (zip_with (fun v x => c * (if Rlt_dec v debt then 1 else 0) * x) vs xs)).
    specialize (IH vs). destruct (Rlt_dec v debt); nra.
Qed.

Lemma INR_inv_nonneg (n : nat) : 0 <= / INR n.
Proof.
  destruct n as [| n].
  - cbn [INR]. rewrite Rinv_0. lra.
  - left. apply Rinv_0_lt_compat, lt_0_INR. lia.
Qed.

End CvaBounds.

Section CvaSimulation.

Lemma mrow_matmul_chol (gauss : nat -> R) (rho : R) (off n : nat) :
  let C := np_matmul [[1; 0]; [rho; sqrt (1 - rho ^ 2)]] (randn gauss off 2 n) in
  exists c0 c1,
    mrow C 0 = Ok c0 /\ mrow C 1 = Ok c1
    /\ length c0 = n /\ length c1 = n
    /\ (forall i, (i < n)%nat -> c0 !! i = Some (gauss (off + i)%nat))
    /\ (forall i, (i < n)%nat ->
          c1 !! i = Some (rho * gauss (off + i)%nat
                          + sqrt (1 - rho ^ 2) * gauss (off + n + i)%nat)).
Proof.
  intros C. subst C. unfold np_matmul, randn, mrow.
  cbn [seq map zip zip_with foldr head default fst snd lookup list_lookup].
  do 2 eexists. split; [reflexivity |]. split; [reflexivity |].
  assert (Hz : forall a b : list R, length a = n -> length b = n ->
            length (zip_with Rplus a b) = n).
  { intros a b Ha Hb. rewrite length_zip_with. lia. }
  assert (Hs : forall (c : R) (k : nat),
            length (map (Rmult c) (map (fun k0 => gauss (off + k * n + k0)%nat) (seq 0 n))) = n).
  { intros c k. now rewrite !length_map, length_seq. }
  assert (H0 : length (np_zeros (length (map (fun k => gauss (off + 0 * n + k)%nat) (seq 0 n)))) = n).
  { unfold np_zeros. now rewrite length_replicate, length_map, length_seq. }
  split; [auto |]. split; [auto |].
  assert (Hl : forall (c : R) (k i : nat), (i < n)%nat ->
            map (Rmult c) (map (fun k0 => gauss (off + k * n + k0)%nat) (seq 0 n)) !! i
            = Some (c * gauss (off + k * n + i)%nat)).
  { intros c k i Hi. rewrite !list_lookup_fmap, lookup_seq_lt by lia. reflexivity. }
  assert (Hzero : forall i, (i < n)%nat ->
            np_zeros (length (map (fun k => gauss (off + 0 * n + k)%nat) (seq 0 n))) !! i
            = Some 0).
  { intros i Hi. unfold np_zeros. rewrite length_map, length_seq.
    now apply lookup_replicate_2. }
  split; intros i Hi; rewrite !lookup_zip_with, !Hl, Hzero by lia; cbn; f_equal.
  - rewrite !Nat.add_0_r. ring.
  - rewrite !Nat.add_0_r. ring.
Qed.

Lemma column_step (n k : nat) (M : matrix) (j : nat) (f : R -> R -> R)
  (c : list R) (X z : nat -> R) :
  shape n k M -> (j + 1 < k)%nat -> length c = n ->
  (forall i, (i < n)%nat -> c !! i = Some (z i)) ->
  (forall i, (i < n)%nat -> mget M i j = Ok (X i)) ->
  exists col M',
    mcol M j = Ok col
    /\ np_zip f col c = Ok (zip_with f col c)
    /\ mset_col M (j + 1) (zip_with f col c) = Ok M'
    /\ shape n k M'
    /\ (forall i, (i < n)%nat -> mget M' i (j + 1) = Ok (f (X i) (z i)))
    /\ (forall i j', j' <> (j + 1)%nat -> mget M' i j' = mget M i j').
Proof.
  intros HM Hj Hc Hz HX.
  destruct (mcol_spec n k M j HM ltac:(lia)) as [col [Hcol [Hlen Hget]]].
  destruct (mset_col_spec n k M (j + 1) (zip_with f col c) HM Hj)
    as [M' [Hset [HM' [Hhit Hmiss]]]].
  { rewrite length_zip_with. lia. }
  exists col, M'. split; [exact Hcol |].
  split; [apply np_zip_ok; lia |]. split; [exact Hset |]. split; [exact HM' |].
  split; [| exact Hmiss].
  intros i Hi. apply Hhit.
  destruct (lookup_lt_is_Some_2 col i) as [x Hx]; [lia |].
  pose proof (Hget i x Hx) as Hx'. rewrite HX in Hx' by exact Hi. injection Hx' as ->.
  rewrite lookup_zip_with, Hx, Hz by exact Hi. reflexivity.
Qed.

Lemma cva_simulate_spec (g : UpAndOut.globals) (gauss : nat -> R) (m n : nat) :
  UpAndOut.g_rho g ^ 2 < 1 -> (1 <= m)%nat ->
  exists paths firm_path,
    UpAndOut.cva_simulate g gauss m n = Ok (paths, firm_path)
    /\ shape n (m + 1) paths /\ shape n (m + 1) firm_path
    /\ forall i j, (i < n)%nat -> (j <= m)%nat ->
         mget paths i j = Ok (cva_asset g gauss (1 / INR m) n i j)
         /\ mget firm_path i j = Ok (cva_firm g gauss (1 / INR m) n i j).
Proof.
  intros Hrho Hm. unfold UpAndOut.cva_simulate, cholesky_corr.
  destruct (Rlt_dec (UpAndOut.g_rho g ^ 2) 1) as [_ | Hn]; [| contradiction].
  rewrite pdiv_ok by (apply not_0_INR; lia). res_simpl.
  set (dt := 1 / INR m).
  destruct (mset_col_spec n (m + 1) (np_zeros2 n (m + 1)) 0 (replicate n (UpAndOut.g_S g)))
    as [p0 [-> [Hp0 [Hp0get _]]]];
    [apply shape_zeros | lia | apply length_replicate |].
  destruct (mset_col_spec n (m + 1) (np_zeros2 n (m + 1)) 0 (replicate n (UpAndOut.g_V g)))
    as [f0 [-> [Hf0 [Hf0get _]]]];
    [apply shape_zeros | lia | apply length_replicate |].
  destruct (for_range_inv
    (fun j (pf : matrix * matrix) =>
       shape n (m + 1) pf.1 /\ shape n (m + 1) pf.2
       /\ forall i j', (i < n)%nat -> (j' <= j)%nat ->
            mget pf.1 i j' = Ok (cva_asset g gauss dt n i j')
            /\ mget pf.2 i j' = Ok (cva_firm g gauss dt n i j'))
    (UpAndOut.cva_step g gauss [[1; 0]; [UpAndOut.g_rho g; sqrt (1 - UpAndOut.g_rho g ^ 2)]] dt n)
    m (p0, f0)) as [[paths firm] [Hfor [Hps [Hfs Hget]]]].
  - cbn [fst snd]. split; [exact Hp0 |]. split; [exact Hf0 |].
    intros i j' Hi Hj'. assert (j' = 0%nat) as -> by lia.
    split; [apply Hp0get | apply Hf0get]; now apply lookup_replicate_2.
  - intros j [p f] Hj [Hps [Hfs Hget]]. cbn [fst snd] in *.
    unfold UpAndOut.cva_step.
    destruct (mrow_matmul_chol gauss (UpAndOut.g_rho g) (j * (2 * n)) n)
      as (c0 & c1 & Hc0 & Hc1 & Hl0 & Hl1 & Hz0 & Hz1).
    cbv zeta in Hc0, Hc1.
    destruct (column_step n (m + 1) p j
      (fun p z => p * exp ((UpAndOut.g_r g - UpAndOut.g_sigma g ^ 2 / 2) * dt
                           + UpAndOut.g_sigma g * sqrt dt * z))
      c0 (fun i => cva_asset g gauss dt n i j) _ Hps ltac:(lia) Hl0 Hz0)
      as (pj & p' & -> & Hzp & Hsp & Hps' & Hphit & Hpmiss).
    { intros i Hi. apply Hget; [exact Hi | lia]. }
    rewrite Hc0. res_simpl. rewrite Hzp, Hsp.
    destruct (column_step n (m + 1) f j
      (fun p z => p * exp ((UpAndOut.g_r g - UpAndOut.g_sigma2 g ^ 2 / 2) * dt
                           + UpAndOut.g_sigma2 g * sqrt dt * z))
      c1 (fun i => cva_firm g gauss dt n i j) _ Hfs ltac:(lia) Hl1 Hz1)
      as (fj & f' & -> & Hzf & Hsf & Hfs' & Hfhit & Hfmiss).
    { intros i Hi. apply Hget; [exact Hi | lia]. }
    rewrite Hc1, Hzf, Hsf.
    exists (p', f'). split; [reflexivity |]. cbn [fst snd].
    split; [exact Hps' |]. split; [exact Hfs' |].
    intros i j' Hi Hj'. destruct (decide (j' = (j + 1)%nat)) as [-> | Hne].
    + rewrite Hphit, Hfhit by exact Hi.
      replace (j + 1)%nat with (S j) by lia. split; reflexivity.
    + rewrite Hpmiss, Hfmiss by exact Hne. apply Hget; [exact Hi | lia].
  - exists paths, firm. cbn [fst snd] in *. auto.
Qed.

End CvaSimulation.

Lemma shape_rows_nonempty (n k : nat) (m : matrix) :
  shape n (k + 1) m -> Forall (fun row : list R => row <> []) m.
Proof.
  intros [_ Hrows]. eapply Forall_impl; [exact Hrows |].
  cbn. intros row Hlen ->. cbn in Hlen. lia.
Qed.

(** The arrays left by the simulation loop are the kind of arrays the
    theorem below is about: one row per path in both, none of them empty. *)
Lemma cva_simulate_well_shaped
  (g : UpAndOut.globals) (gauss : nat -> R) (m n : nat) :
  UpAndOut.g_rho g ^ 2 < 1 -> (1 <= m)%nat -> (1 <= n)%nat ->
  exists paths firm_path,
    UpAndOut.cva_simulate g gauss m n = Ok (paths, firm_path)
    /\ paths <> []
    /\ length firm_path = length paths
    /\ Forall (fun row : list R => row <> []) paths
    /\ Forall (fun row : list R => row <> []) firm_path.
Proof.
  intros Hrho Hm Hn.
  destruct (cva_simulate_spec g gauss m n Hrho Hm)
    as (paths & firm & Hsim & Hps & Hfs & _).
  exists paths, firm. split; [exact Hsim |].
  split; [| split; [| split]].
  - destruct Hps as [Hlen _]. intros ->. cbn in Hlen. lia.
  - destruct Hps as [Hlen _], Hfs as [Hlen' _]. congruence.
  - exact (shape_rows_nonempty n m paths Hps).
  - exact (shape_rows_nonempty n m firm Hfs).
Qed.

(** C6: for a recovery rate in [[0, 1]] and the two arrays of simulated
    paths (as many firm-value paths as asset paths, at least one, each with
    at least one observation) the CVA cell produces non-negative per-path
    payoffs and estimates with [0 <= cva_est <= DFValue], where
    [cva_est] is the mean of
    [e^(-rT) * (1 - recovery) * (firm value at maturity < debt) * payoff]
    and [DFValue] the mean of [payoff * e^(-rT)]. *)
Theorem cva_est_between_zero_and_DFValue
  (g : UpAndOut.globals) (paths firm_path : matrix) :
  0 <= UpAndOut.g_recovery g <= 1 ->
  paths <> [] ->
  length firm_path = length paths ->
  Forall (fun row : list R => row <> []) paths ->
  Forall (fun row : list R => row <> []) firm_path ->
  exists e : UpAndOut.cva_estimates,
    UpAndOut.cva_cell g paths firm_path = Ok e
    /\ Forall (fun x => 0 <= x) (UpAndOut.final_values e)
    /\ 0 <= UpAndOut.cva_est e <= UpAndOut.DFValue e.
Proof.
  intros Hrec _ Hlen Hp Hf. unfold UpAndOut.cva_cell.
  destruct (cva_final_values_ok g paths Hp) as [fv [-> [Hfv Hpos]]].
  destruct (mcol_last_ok firm_path Hf) as [tf [-> Htf]].
  res_simpl. rewrite np_zip_ok by congruence.
  eexists. split; [reflexivity |].
  cbn [UpAndOut.final_values UpAndOut.cva_est UpAndOut.DFValue].
  split; [exact Hpos |].
  unfold np_mean. rewrite length_zip_with, length_map.
  replace (length tf `min` length fv)%nat with (length fv) by lia.
  pose proof (INR_inv_nonneg (length fv)) as Hn.
  set (disc := exp (- UpAndOut.g_r g * UpAndOut.g_T g)).
  assert (Hd : 0 < disc) by apply exp_pos.
  assert (Hc : 0 <= disc * (1 - UpAndOut.g_recovery g) <= disc) by nra.
  pose proof (loss_sum_bounds _ disc (UpAndOut.g_debt g) tf fv Hc Hpos) as [Hlo Hhi].
  unfold Rdiv. split.
  - apply Rmult_le_pos; assumption.
  - apply Rmult_le_compat_r; assumption.
Qed.

Lemma cva_est_between_zero_and_DFValue_witness :
  exists e : UpAndOut.cva_estimates,
    UpAndOut.cva_cell UpAndOut.notebook_globals
      [[100; 120; 130]; [100; 155; 140]] [[200; 180; 170]; [200; 210; 220]] = Ok e
    /\ Forall (fun x => 0 <= x) (UpAndOut.final_values e)
    /\ 0 <= UpAndOut.cva_est e <= UpAndOut.DFValue e.
Proof.
  apply (cva_est_between_zero_and_DFValue UpAndOut.notebook_globals
           [[100; 120; 130]; [100; 155; 140]] [[200; 180; 170]; [200; 210; 220]]).
  - cbn [UpAndOut.g_recovery UpAndOut.notebook_globals]. lra.
  - discriminate.
  - reflexivity.
  - repeat constructor; discriminate.
  - repeat constructor; discriminate.
Defined.

(** ** The path simulation of [vanillaMC] *)

Section PathSimulation.

Lemma py_int_10 : py_int (1 / (1 / 10)) = 10%Z.
Proof.
  replace (1 / (1 / 10)) with 10 by field.
  unfold py_int. destruct (Rle_dec 0 10) as [_ | Hn]; [| lra].
  symmetry. apply Int_part_spec. lra.
Qed.

(** [np.cumprod] of the step factors, scaled by the spot, walks the
    lognormal steps. *)
Lemma cumprod_gbm_path (sigma r dt S acc : R) (zs : list R) :
  map (fun x => x * S)
      (cumprod_from acc
         (map (fun w => exp ((r - sigma ^ 2 / 2) * dt + w))
              (map (fun z => z * sigma * sqrt dt) zs)))
  = Spec.gbm_path sigma r dt (acc * S) zs.
Proof.
  revert acc. induction zs as [| z zs IH]; intros acc; cbn [map cumprod_from Spec.gbm_path].
  - reflexivity.
  - rewrite IH. unfold Spec.gbm_step.
    replace (z * sigma * sqrt dt) with (sigma * sqrt dt * z) by ring.
    set (e := exp _).
    replace (acc * e * S) with (acc * S * e) by ring. reflexivity.
Qed.

Lemma gbm_path_last (sigma r dt s : R) (zs : list R) (z : R) :
  last (Spec.gbm_path sigma r dt s (z :: zs))
  = Some (s * exp ((r - sigma ^ 2 / 2) * (INR (length (z :: zs)) * dt)
                   + sigma * sqrt dt * np_sum (z :: zs))).
Proof.
  revert s z. induction zs as [| z' zs IH]; intros s z.
  - cbn [Spec.gbm_path last length np_sum foldr INR]. unfold Spec.gbm_step.
    do 3 f_equal. ring.
  - change (Spec.gbm_path sigma r dt s (z :: z' :: zs))
      with (Spec.gbm_step sigma r dt s z
            :: Spec.gbm_path sigma r dt (Spec.gbm_step sigma r dt s z) (z' :: zs)).
    change (last (?x :: Spec.gbm_path sigma r dt ?t (z' :: zs)))
      with (last (Spec.gbm_path sigma r dt t (z' :: zs))).
    rewrite IH. unfold Spec.gbm_step. f_equal.
    rewrite Rmult_assoc, <- exp_plus. do 2 f_equal.
    change (length (z :: z' :: zs)) with (S (length (z' :: zs))).
    rewrite S_INR.
    change (np_sum (z :: z' :: zs)) with (z + np_sum (z' :: zs)).
    ring.
Qed.

Lemma vanillaMC_path_rows (gauss : nat -> R) (S : R) (N : nat) (sig r : R) :
  Vanilla.vanillaMC_path gauss S N sig r
  = map (fun i => Spec.gbm_path sig r (1 / 10) S
                    (map (fun k => gauss (i * 10 + k)%nat) (seq 0 10)))
        (seq 0 N).
Proof.
  unfold Vanilla.vanillaMC_path, randn. rewrite py_int_10.
  change (Z.to_nat 10) with 10%nat.
  rewrite 2!map_map. apply map_ext. intros i.
  unfold np_cumprod. rewrite cumprod_gbm_path. now rewrite Rmult_1_l.
Qed.

(** The terminal prices [path[:,-1]]: the asset at time [10 * 0.1 = 1]. *)
Lemma vanillaMC_terminal (gauss : nat -> R) (S : R) (N : nat) (sig r : R) :
  mcol_last (Vanilla.vanillaMC_path gauss S N sig r)
  = Ok (map (fun i =>
              S * exp ((r - sig ^ 2 / 2) * 1
                       + sig * sqrt (1 / 10)
                         * np_sum (map (fun k => gauss (i * 10 + k)%nat) (seq 0 10))))
            (seq 0 N)).
Proof.
  rewrite vanillaMC_path_rows.
  induction (seq 0 N) as [| i l IH]; cbn [map mcol_last]; [reflexivity |].
  rewrite IH.
  change (seq 0 10) with (0%nat :: seq 1 9). cbn [map].
  rewrite gbm_path_last. res_simpl. do 4 f_equal.
  cbn [length map seq INR]. field.
Qed.

End PathSimulation.

(** C8, evaluated.  The paths of [vanillaMC] are exact lognormal steps of
    fixed length [dt = 0.1] over ten steps, whatever [T] is: the function
    simulates up to time 1 and uses [T] for discounting only, so its price
    is the discounted mean payoff of the asset at time 1.  The loop of the
    CVA cell steps in the same way with [dt = 1/m], whatever the
    module-level [T] is.  At [T = 2] with all variates zero and
    [S = 100, sig = 0.2, r = 0.04], the terminal price of [vanillaMC] is
    [100*e^0.02]; a path over [[0, T]] in ten steps of [dt = T/10] ends at
    [100*e^0.04]. *)
Theorem vanillaMC_simulates_to_time_one :
  (forall (gauss : nat -> R) (S : R) (N : nat) (sig r : R),
     Vanilla.vanillaMC_path gauss S N sig r
     = map (fun i => Spec.gbm_path sig r (1 / 10) S
                       (map (fun k => gauss (i * 10 + k)%nat) (seq 0 10)))
           (seq 0 N))
  /\ (forall (gauss : nat -> R) (S K T : R) (N : nat) (sig r : R),
       (1 <= N)%nat ->
       Vanilla.vanillaMC gauss S K T N sig r true
       = Ok (exp (- r * T)
             * np_mean
                 (map (fun i =>
                    Rmax (S * exp ((r - sig ^ 2 / 2) * 1
                                   + sig * sqrt (1 / 10)
                                     * np_sum (map (fun k => gauss (i * 10 + k)%nat)
                                                   (seq 0 10)))
                          - K) 0)
                    (seq 0 N))))
  /\ (forall (g : UpAndOut.globals) (gauss : nat -> R) (m n : nat),
       UpAndOut.g_rho g ^ 2 < 1 -> (1 <= m)%nat ->
       exists paths firm_path,
         UpAndOut.cva_simulate g gauss m n = Ok (paths, firm_path)
         /\ forall i j, (i < n)%nat -> (j <= m)%nat ->
              mget paths i j = Ok (cva_asset g gauss (1 / INR m) n i j)
              /\ mget firm_path i j = Ok (cva_firm g gauss (1 / INR m) n i j))
  /\ Vanilla.vanillaMC (fun _ => 0) 100 100 2 1 (2 / 10) (4 / 100) true
     = Ok (exp (- (4 / 100) * 2) * (100 * exp (2 / 100) - 100))
  /\ last (Spec.simulatePath 100 (2 / 10) (4 / 100) 2 10 (replicate 10 0))
     = Some (100 * exp (4 / 100))
  /\ 100 * exp (2 / 100) < 100 * exp (4 / 100).
Proof.
  split; [exact vanillaMC_path_rows |].
  split.
  { intros gauss S K T N sig r _. unfold Vanilla.vanillaMC.
    rewrite vanillaMC_terminal. res_simpl. now rewrite map_map. }
  split.
  { intros g gauss m n Hrho Hm.
    destruct (cva_simulate_spec g gauss m n Hrho Hm)
      as (paths & firm & Hsim & _ & _ & Hget).
    exists paths, firm. split; [exact Hsim | exact Hget]. }
  split; [| split].
  - unfold Vanilla.vanillaMC. rewrite vanillaMC_path_rows.
    cbn [seq map mcol_last]. rewrite gbm_path_last.
    res_simpl. cbn [np_mean np_sum foldr length map INR].
    do 2 f_equal.
    assert (He : exp ((4 / 100 - (2 / 10) ^ 2 / 2) * ((1 + 1 + 1 + 1 + 1 + 1 + 1 + 1 + 1 + 1) * (1 / 10))
                      + 2 / 10 * sqrt (1 / 10) * (0 + (0 + (0 + (0 + (0 + (0 + (0 + (0 + (0 + (0 + 0)))))))))))
                 = exp (2 / 100)).
    { f_equal. field. }
    rewrite He.
    assert (1 < exp (2 / 100)) by (rewrite <- exp_0; apply exp_increasing; lra).
    rewrite Rmax_left by lra.
    unfold np_mean, np_sum. cbn [foldr length INR]. lra.
  - unfold Spec.simulatePath.
    change (replicate 10 0) with (0 :: replicate 9 0).
    change (last (100 :: Spec.gbm_path ?a ?b ?c ?d (0 :: ?l)))
      with (last (Spec.gbm_path a b c d (0 :: l))).
    rewrite gbm_path_last. do 3 f_equal.
    cbn [replicate length np_sum foldr INR]. field.
  - apply Rmult_lt_compat_l; [lra |]. apply exp_increasing. lra.
Qed.

(** * Further properties of the vanilla notebook *)

Lemma Ok_inj {A : Type} (a b : A) : Ok a = Ok b -> a = b.
Proof. congruence. Qed.

Section VanillaErrors.

Variable Phi : R -> R.

(** X1: [vanillaBS] is homogeneous of degree one in spot and strike:
    quoting both in another unit multiplies the price by the same factor. *)
Theorem vanillaBS_homogeneous (S K T sig r c : R) (call : bool) (v : R) :
  0 < c -> K <> 0 ->
  Vanilla.vanillaBS Phi S K T sig r call = Ok v ->
  Vanilla.vanillaBS Phi (c * S) (c * K) T sig r call = Ok (c * v).
Proof.
  intros Hc HK. unfold Vanilla.vanillaBS.
  rewrite (pdiv_ok _ _ HK).
  rewrite pdiv_ok by (apply Rmult_integral_contrapositive_currified; lra).
  replace (c * S / (c * K)) with (S / K) by (field; split; lra).
  res_simpl. intros Hv. apply Ok_inj in Hv. subst v. f_equal.
  destruct call; ring.
Qed.

End VanillaErrors.

Lemma vanillaBS_homogeneous_witness :
  Vanilla.vanillaBS logistic (2 * 100) (2 * 100) 1 (2 / 10) (4 / 100) true
  = Ok (2 * Spec.call_value logistic 100 100 1 (2 / 10) (4 / 100)).
Proof.
  apply (vanillaBS_homogeneous logistic 100 100 1 (2 / 10) (4 / 100) 2 true).
  - lra.
  - lra.
  - apply vanillaBS_call_eq. lra.
Defined.

Section LatticeProperties.

(** The price returned for [N >= 1], whatever the other arguments. *)
Lemma vanillaTree_value (S K T : R) (N : nat) (sig r d : R) (c : bool) :
  (1 <= N)%nat ->
  Vanilla.vanillaTree S K T N sig r d c = Ok (Spec.treePrice S K T N sig r c).
Proof.
  intros HN.
  destruct (vanillaTree_asset_spec S N (Spec.lattice_u T N sig) (Spec.lattice_d T N sig))
    as [tree [Htree [Hshape Hprice]]].
  unfold Vanilla.vanillaTree.
  rewrite pdiv_ok by (apply not_0_INR; lia). res_simpl.
  fold (Spec.lattice_u T N sig). fold (Spec.lattice_d T N sig).
  fold (Spec.lattice_p T N sig r).
  rewrite Htree.
  destruct (terminal_column N K (fun x => x - K) _ tree Hshape Hprice)
    as (col & call & Hcol & Hcmax & Hcset & Hcs & Hcall).
  destruct (terminal_column N K (fun x => - x + K) _ tree Hshape Hprice)
    as (col' & put & Hcol' & Hpmax & Hpset & Hps & Hput).
  rewrite Hcol in Hcol'. apply Ok_inj in Hcol'. subst col'.
  rewrite Hcol. res_simpl. rewrite Hcmax, Hcset, Hpmax, Hpset.
  set (price := Spec.node_price S (Spec.lattice_u T N sig) (Spec.lattice_d T N sig)) in *.
  set (p := Spec.lattice_p T N sig r).
  set (dt := T / INR N).
  set (Vc := Spec.node_value (Spec.payoff true K) price (exp (- (r * dt))) p).
  set (Vp := Spec.node_value (Spec.payoff false K) price (exp (- (r * dt))) p).
  destruct (vanillaTree_backward N r dt p Vc Vp call put) as [cp [-> [[_ Hc] [_ Hp]]]].
  - intros k i j. unfold Vc. cbn [Spec.node_value].
    now replace (- r * dt) with (- (r * dt)) by ring.
  - intros k i j. unfold Vp. cbn [Spec.node_value].
    now replace (- r * dt) with (- (r * dt)) by ring.
  - split; [exact Hcs |]. intros i j Hj Hi.
    assert (j = N) as -> by lia. rewrite Hcall by lia.
    rewrite Nat.sub_diag. unfold Vc. cbn [Spec.node_value Spec.payoff].
    now rewrite Rmax_comm.
  - split; [exact Hps |]. intros i j Hj Hi.
    assert (j = N) as -> by lia. rewrite Hput by lia.
    rewrite Nat.sub_diag. unfold Vp. cbn [Spec.node_value Spec.payoff].
    replace (- price i N + K) with (K - price i N) by ring.
    now rewrite Rmax_comm.
  - unfold Spec.treePrice. fold price p dt.
    destruct c.
    + rewrite Hc by lia. now rewrite Nat.sub_0_r.
    + rewrite Hp by lia. now rewrite Nat.sub_0_r.
Qed.

Lemma exp_pow_nat (x : R) (n : nat) : exp x ^ n = exp (INR n * x).
Proof.
  induction n as [| n IH].
  - cbn [pow INR]. now rewrite Rmult_0_l, exp_0.
  - rewrite S_INR. cbn [pow]. rewrite IH, <- exp_plus. f_equal. ring.
Qed.

Lemma node_price_up (S u d : R) (i j : nat) :
  (i <= j)%nat -> Spec.node_price S u d i (j + 1) = Spec.node_price S u d i j * u.
Proof.
  intros Hij. unfold Spec.node_price.
  replace (j + 1 - i)%nat with (Datatypes.S (j - i)) by lia. cbn [pow]. ring.
Qed.

Lemma node_price_down (S u d : R) (i j : nat) :
  Spec.node_price S u d (i + 1) (j + 1) = Spec.node_price S u d i j * d.
Proof.
  unfold Spec.node_price.
  replace (j + 1 - (i + 1))%nat with (j - i)%nat by lia.
  replace (i + 1)%nat with (Datatypes.S i) by lia. cbn [pow]. ring.
Qed.

Lemma node_price_nonneg (S u d : R) (i j : nat) :
  0 <= S -> 0 <= u -> 0 <= d -> 0 <= Spec.node_price S u d i j.
Proof.
  intros HS Hu Hd. unfold Spec.node_price.
  apply Rmult_le_pos; [apply Rmult_le_pos |]; try assumption; apply pow_le; assumption.
Qed.

(** One step of the lattice is a martingale step: discounting the
    expectation of the two successor prices gives back the price. *)
Lemma lattice_martingale (T : R) (N : nat) (sig r : R) :
  (1 <= N)%nat -> 0 < T -> 0 < sig ->
  let u := Spec.lattice_u T N sig in
  let d := Spec.lattice_d T N sig in
  let p := Spec.lattice_p T N sig r in
  1 < u /\ 0 < d < 1
  /\ exp (- (r * (T / INR N))) * (p * u + (1 - p) * d) = 1.
Proof.
  intros HN HT Hsig u d p.
  assert (HNR : 0 < INR N) by (apply lt_0_INR; lia).
  assert (Hdt : 0 < T / INR N) by (apply Rdiv_lt_0_compat; assumption).
  assert (Hx : 0 < sig * sqrt (T / INR N)).
  { apply Rmult_lt_0_compat; [assumption | now apply sqrt_lt_R0]. }
  assert (Hu : 1 < u).
  { unfold u, Spec.lattice_u. rewrite <- exp_0. now apply exp_increasing. }
  assert (Hd : 0 < d < 1).
  { unfold d, Spec.lattice_d. fold u. split.
    - apply Rdiv_lt_0_compat; lra.
    - apply (Rmult_lt_reg_r u); [lra |]. unfold Rdiv.
      rewrite Rmult_assoc, Rinv_l by lra. lra. }
  split; [exact Hu |]. split; [exact Hd |].
  assert (Hp : p * u + (1 - p) * d = exp (r * (T / INR N))).
  { unfold p, Spec.lattice_p. fold u d. field. lra. }
  rewrite Hp, <- exp_plus.
  replace (- (r * (T / INR N)) + r * (T / INR N)) with 0 by ring.
  apply exp_0.
Qed.

Lemma node_value_parity (K : R) (price : nat -> nat -> R) (disc p u d : R) :
  (forall i j, (i <= j)%nat -> price i (j + 1)%nat = price i j * u) ->
  (forall i j, price (i + 1)%nat (j + 1)%nat = price i j * d) ->
  disc * (p * u + (1 - p) * d) = 1 ->
  forall k i j, (i <= j)%nat ->
    Spec.node_value (Spec.payoff true K) price disc p k i j
    - Spec.node_value (Spec.payoff false K) price disc p k i j
    = price i j - K * disc ^ k.
Proof.
  intros Hup Hdown Hmart. induction k as [| k IH]; intros i j Hij.
  - cbn [Spec.node_value Spec.payoff pow].
    unfold Rmax. destruct (Rle_dec (price i j - K) 0), (Rle_dec (K - price i j) 0); lra.
  - cbn [Spec.node_value pow].
    pose proof (IH i (j + 1)%nat ltac:(lia)) as H1.
    pose proof (IH (i + 1)%nat (j + 1)%nat ltac:(lia)) as H2.
    rewrite Hup in H1 by exact Hij. rewrite Hdown in H2.
    set (cu := Spec.node_value (Spec.payoff true K) price disc p k i (j + 1)) in *.
    set (cd := Spec.node_value (Spec.payoff true K) price disc p k (i + 1) (j + 1)) in *.
    set (pu := Spec.node_value (Spec.payoff false K) price disc p k i (j + 1)) in *.
    set (pd := Spec.node_value (Spec.payoff false K) price disc p k (i + 1) (j + 1)) in *.
    replace (disc * (p * cu + (1 - p) * cd) - disc * (p * pu + (1 - p) * pd))
      with (disc * (p * (cu - pu) + (1 - p) * (cd - pd))) by ring.
    rewrite H1, H2.
    replace (disc * (p * (price i j * u - K * disc ^ k)
                     + (1 - p) * (price i j * d - K * disc ^ k)))
      with (price i j * (disc * (p * u + (1 - p) * d)) - K * (disc * disc ^ k)) by ring.
    rewrite Hmart. ring.
Qed.

Lemma node_value_bounds (K : R) (price : nat -> nat -> R) (disc p u d : R) :
  (forall i j, (i <= j)%nat -> price i (j + 1)%nat = price i j * u) ->
  (forall i j, price (i + 1)%nat (j + 1)%nat = price i j * d) ->
  (forall i j, 0 <= price i j) ->
  disc * (p * u + (1 - p) * d) = 1 ->
  0 <= K -> 0 < disc -> 0 <= p <= 1 ->
  forall k i j, (i <= j)%nat ->
    0 <= Spec.node_value (Spec.payoff true K) price disc p k i j <= price i j
    /\ 0 <= Spec.node_value (Spec.payoff false K) price disc p k i j <= K * disc ^ k.
Proof.
  intros Hup Hdown Hpos Hmart HK Hdisc Hp. induction k as [| k IH]; intros i j Hij.
  - cbn [Spec.node_value Spec.payoff pow]. pose proof (Hpos i j) as Hs.
    unfold Rmax. destruct (Rle_dec (price i j - K) 0), (Rle_dec (K - price i j) 0); lra.
  - cbn [Spec.node_value pow].
    destruct (IH i (j + 1)%nat ltac:(lia)) as [[Hc1 Hc2] [Hp1 Hp2]].
    destruct (IH (i + 1)%nat (j + 1)%nat ltac:(lia)) as [[Hc3 Hc4] [Hp3 Hp4]].
    rewrite Hup in Hc2 by exact Hij. rewrite Hdown in Hc4.
    set (cu := Spec.node_value (Spec.payoff true K) price disc p k i (j + 1)) in *.
    set (cd := Spec.node_value (Spec.payoff true K) price disc p k (i + 1) (j + 1)) in *.
    set (pu := Spec.node_value (Spec.payoff false K) price disc p k i (j + 1)) in *.
    set (pd := Spec.node_value (Spec.payoff false K) price disc p k (i + 1) (j + 1)) in *.
    assert (Hq : 0 <= 1 - p) by lra.
    assert (Hcl : 0 <= p * cu + (1 - p) * cd).
    { apply Rplus_le_le_0_compat; apply Rmult_le_pos; lra. }
    assert (Hcu : p * cu + (1 - p) * cd <= price i j * (p * u + (1 - p) * d)).
    { assert (p * cu <= p * (price i j * u)) by (apply Rmult_le_compat_l; lra).
      assert ((1 - p) * cd <= (1 - p) * (price i j * d)) by (apply Rmult_le_compat_l; lra).
      lra. }
    assert (Hpl : 0 <= p * pu + (1 - p) * pd).
    { apply Rplus_le_le_0_compat; apply Rmult_le_pos; lra. }
    assert (Hpu : p * pu + (1 - p) * pd <= K * disc ^ k).
    { assert (p * pu <= p * (K * disc ^ k)) by (apply Rmult_le_compat_l; lra).
      assert ((1 - p) * pd <= (1 - p) * (K * disc ^ k)) by (apply Rmult_le_compat_l; lra).
      lra. }
    split; split.
    + apply Rmult_le_pos; lra.
    + apply (Rmult_le_compat_l disc) in Hcu; [| lra].
      replace (disc * (price i j * (p * u + (1 - p) * d)))
        with (price i j * (disc * (p * u + (1 - p) * d))) in Hcu by ring.
      rewrite Hmart in Hcu. lra.
    + apply Rmult_le_pos; lra.
    + apply (Rmult_le_compat_l disc) in Hpu; [| lra]. lra.
Qed.

End LatticeProperties.

(** X2: [vanillaTree] raises [ZeroDivisionError] when called with no step
    ([N = 0], from [T/N]); with at least one step it returns a price: no
    index of its three grids is then out of range. *)
Theorem vanillaTree_no_steps_raises
  (S K T : R) (N : nat) (sig r d : R) (c : bool) :
  (N = 0%nat -> Vanilla.vanillaTree S K T N sig r d c = Raise ZeroDivisionError)
  /\ ((1 <= N)%nat -> exists v, Vanilla.vanillaTree S K T N sig r d c = Ok v).
Proof.
  split.
  - intros ->. unfold Vanilla.vanillaTree, pdiv. cbn [INR].
    destruct (Req_dec_T 0 0) as [_ | Hn]; [reflexivity | contradiction].
  - intros HN. eexists. apply vanillaTree_value. exact HN.
Qed.

(** X3: put-call parity on the lattice.  For [N >= 1], [T > 0] and
    [sig > 0] the call and the put price of [vanillaTree] differ by
    [S - K*e^(-rT)], exactly as the Black-Scholes prices do. *)
Theorem vanillaTree_put_call_parity (S K T : R) (N : nat) (sig r d : R) :
  (1 <= N)%nat -> 0 < T -> 0 < sig ->
  exists c p : R,
    Vanilla.vanillaTree S K T N sig r d true = Ok c
    /\ Vanilla.vanillaTree S K T N sig r d false = Ok p
    /\ c - p = S - K * exp (- (r * T)).
Proof.
  intros HN HT Hsig.
  exists (Spec.treePrice S K T N sig r true), (Spec.treePrice S K T N sig r false).
  split; [now apply vanillaTree_value |]. split; [now apply vanillaTree_value |].
  destruct (lattice_martingale T N sig r HN HT Hsig) as (_ & _ & Hmart).
  unfold Spec.treePrice.
  rewrite (node_value_parity K _ _ _ (Spec.lattice_u T N sig) (Spec.lattice_d T N sig));
    [| intros; now apply node_price_up | intros; apply node_price_down
     | exact Hmart | lia].
  unfold Spec.node_price. cbn [Nat.sub pow]. rewrite exp_pow_nat.
  replace (INR N * - (r * (T / INR N))) with (- (r * T)).
  - ring.
  - field. apply not_0_INR. lia.
Qed.

Lemma vanillaTree_put_call_parity_witness :
  exists c p : R,
    Vanilla.vanillaTree 100 100 1 200 (2 / 10) (4 / 100) 0 true = Ok c
    /\ Vanilla.vanillaTree 100 100 1 200 (2 / 10) (4 / 100) 0 false = Ok p
    /\ c - p = 100 - 100 * exp (- (4 / 100 * 1)).
Proof.
  apply (vanillaTree_put_call_parity 100 100 1 200 (2 / 10) (4 / 100) 0);
    [lia | lra | lra].
Defined.

(** X4: no-arbitrage bounds on the lattice.  When the drift over one step
    does not exceed the volatility over one step,
    [|r*T/N| <= sig*sqrt(T/N)] (the up-probability is then in [[0,1]]), the
    call price lies between 0 and the spot and the put price between 0 and
    the discounted strike. *)
Theorem vanillaTree_price_bounds (S K T : R) (N : nat) (sig r d : R) :
  (1 <= N)%nat -> 0 < T -> 0 < sig -> 0 <= S -> 0 <= K ->
  Rabs (r * (T / INR N)) <= sig * sqrt (T / INR N) ->
  exists c p : R,
    Vanilla.vanillaTree S K T N sig r d true = Ok c
    /\ Vanilla.vanillaTree S K T N sig r d false = Ok p
    /\ 0 <= c <= S
    /\ 0 <= p <= K * exp (- (r * T)).
Proof.
  intros HN HT Hsig HS HK Hr.
  exists (Spec.treePrice S K T N sig r true), (Spec.treePrice S K T N sig r false).
  split; [now apply vanillaTree_value |]. split; [now apply vanillaTree_value |].
  destruct (lattice_martingale T N sig r HN HT Hsig) as (Hu & Hd & Hmart).
  cbv zeta in Hu, Hd, Hmart.
  assert (Hp : 0 <= Spec.lattice_p T N sig r <= 1).
  { unfold Spec.lattice_p.
    set (u := Spec.lattice_u T N sig) in *. set (dn := Spec.lattice_d T N sig) in *.
    set (x := sig * sqrt (T / INR N)) in *.
    assert (Hr12 : - x <= r * (T / INR N) <= x).
    { unfold Rabs in Hr. destruct (Rcase_abs (r * (T / INR N))); lra. }
    destruct Hr12 as [Hr1 Hr2].
    assert (He1 : exp (r * (T / INR N)) <= u).
    { unfold u, Spec.lattice_u. fold x. destruct Hr2 as [Hlt | ->]; [| lra].
      left. now apply exp_increasing. }
    assert (He2 : dn <= exp (r * (T / INR N))).
    { unfold dn, Spec.lattice_d, Spec.lattice_u. fold x.
      replace (1 / exp x) with (exp (- x)) by (rewrite exp_Ropp; unfold Rdiv; ring).
      destruct Hr1 as [Hlt | <-]; [| lra]. left. now apply exp_increasing. }
    assert (Hud : 0 < u - dn) by lra.
    split.
    - apply Rmult_le_pos; [lra |]. left. now apply Rinv_0_lt_compat.
    - apply (Rmult_le_reg_r (u - dn)); [exact Hud |].
      unfold Rdiv. rewrite Rmult_assoc, Rinv_l by lra. lra. }
  unfold Spec.treePrice.
  destruct (node_value_bounds K
              (Spec.node_price S (Spec.lattice_u T N sig) (Spec.lattice_d T N sig))
              (exp (- (r * (T / INR N)))) (Spec.lattice_p T N sig r)
              (Spec.lattice_u T N sig) (Spec.lattice_d T N sig))
    with (k := N) (i := 0%nat) (j := 0%nat) as [Hc Hput].
  - intros; now apply node_price_up.
  - intros; apply node_price_down.
  - intros; apply node_price_nonneg; lra.
  - exact Hmart.
  - exact HK.
  - apply exp_pos.
  - exact Hp.
  - lia.
  - assert (Hs : Spec.node_price S (Spec.lattice_u T N sig) (Spec.lattice_d T N sig) 0 0 = S)
      by (unfold Spec.node_price; cbn [Nat.sub pow]; ring).
    rewrite Hs in Hc.
    rewrite exp_pow_nat in Hput.
    replace (INR N * - (r * (T / INR N))) with (- (r * T)) in Hput
      by (field; apply not_0_INR; lia).
    split; [exact Hc | exact Hput].
Qed.

Lemma vanillaTree_price_bounds_witness :
  exists c p : R,
    Vanilla.vanillaTree 100 100 1 1 (2 / 10) (4 / 100) 0 true = Ok c
    /\ Vanilla.vanillaTree 100 100 1 1 (2 / 10) (4 / 100) 0 false = Ok p
    /\ 0 <= c <= 100
    /\ 0 <= p <= 100 * exp (- (4 / 100 * 1)).
Proof.
  apply (vanillaTree_price_bounds 100 100 1 1 (2 / 10) (4 / 100) 0);
    [lia | lra | lra | lra | lra |].
  cbn [INR]. replace (1 / 1) with 1 by lra. rewrite sqrt_1.
  rewrite Rabs_pos_eq; lra.
Defined.

Lemma mget_zeros (n k i j : nat) :
  (i < n)%nat -> (j < k)%nat -> mget (np_zeros2 n k) i j = Ok 0.
Proof.
  intros Hi Hj. unfold mget, np_zeros2, np_zeros.
  rewrite lookup_replicate_2 by exact Hi. now rewrite lookup_replicate_2 by exact Hj.
Qed.

Lemma vanillaTree_asset_lower (S : R) (N : nat) (u d : R) :
  exists tree,
    Vanilla.vanillaTree_asset S N u d (np_zeros2 (N + 1) (N + 1)) = Ok tree
    /\ forall i j, (j < i <= N)%nat -> mget tree i j = Ok 0.
Proof.
  unfold Vanilla.vanillaTree_asset.
  destruct (for_range_inv
    (fun (_ : nat) tree => shape (N + 1) (N + 1) tree
       /\ forall i j, (j < i <= N)%nat -> mget tree i j = Ok 0)
    (fun j tree => for_ (range (j + 1))
       (fun i tree => mset tree i j (S * u ^ (j - i) * d ^ i)) tree)
    (N + 1) (np_zeros2 (N + 1) (N + 1))) as [tree [Hfor [_ Hget]]].
  - split; [apply shape_zeros |]. intros i j Hij. apply mget_zeros; lia.
  - intros j t Hj Hinv.
    apply (for_range_inv
      (fun (_ : nat) tree => shape (N + 1) (N + 1) tree
         /\ forall i j, (j < i <= N)%nat -> mget tree i j = Ok 0)
      (fun i tree => mset tree i j (S * u ^ (j - i) * d ^ i)) (j + 1) t Hinv).
    intros i w Hi [Hw Hlow].
    destruct (mset_spec (N + 1) (N + 1) w i j (S * u ^ (j - i) * d ^ i) Hw)
      as [w' [Hset [Hw' [_ Hmiss]]]]; [lia | lia |].
    exists w'. split; [exact Hset |]. split; [exact Hw' |].
    intros i' j' Hij'. rewrite Hmiss by lia. now apply Hlow.
  - exists tree. split; [exact Hfor | exact Hget].
Qed.

(** X5: the grid of asset prices built by [vanillaTree] is upper
    triangular and recombining: below the diagonal it keeps the zeros of
    [np.zeros], and since [d = 1/u] an up move followed by a down move
    leads back to the same price, [tree[i+1, j+2] = tree[i, j]]. *)
Theorem vanillaTree_asset_recombines (S : R) (N : nat) (u : R) :
  u <> 0 ->
  exists tree,
    Vanilla.vanillaTree_asset S N u (1 / u) (np_zeros2 (N + 1) (N + 1)) = Ok tree
    /\ (forall i j, (j < i <= N)%nat -> mget tree i j = Ok 0)
    /\ (forall i j, (i <= j)%nat -> (j + 2 <= N)%nat ->
          mget tree (i + 1) (j + 2) = mget tree i j).
Proof.
  intros Hu.
  destruct (vanillaTree_asset_spec S N u (1 / u)) as [tree [Htree [_ Hprice]]].
  destruct (vanillaTree_asset_lower S N u (1 / u)) as [tree' [Htree' Hlow]].
  rewrite Htree in Htree'. apply Ok_inj in Htree'. subst tree'.
  exists tree. split; [exact Htree |]. split; [exact Hlow |].
  intros i j Hij HjN. rewrite !Hprice by lia. f_equal.
  unfold Spec.node_price.
  replace (j + 2 - (i + 1))%nat with (Datatypes.S (j - i)) by lia.
  replace (i + 1)%nat with (Datatypes.S i) by lia.
  cbn [pow]. field. exact Hu.
Qed.

Lemma vanillaTree_asset_recombines_witness :
  exists tree,
    Vanilla.vanillaTree_asset 100 2 2 (1 / 2) (np_zeros2 (2 + 1) (2 + 1)) = Ok tree
    /\ (forall i j, (j < i <= 2)%nat -> mget tree i j = Ok 0)
    /\ (forall i j, (i <= j)%nat -> (j + 2 <= 2)%nat ->
          mget tree (i + 1) (j + 2) = mget tree i j).
Proof.
  apply (vanillaTree_asset_recombines 100 2 2). lra.
Defined.

Section Means.

Lemma np_sum_bounds (a b : R) (l : list R) :
  Forall (fun x => a <= x <= b) l ->
  INR (length l) * a <= np_sum l <= INR (length l) * b.
Proof.
  induction 1 as [| x l Hx _ IH].
  - cbn [length INR np_sum foldr]. lra.
  - change (np_sum (x :: l)) with (x + np_sum l).
    change (length (x :: l)) with (S (length l)). rewrite S_INR. lra.
Qed.

Lemma np_mean_bounds (a b : R) (l : list R) :
  l <> [] -> Forall (fun x => a <= x <= b) l -> a <= np_mean l <= b.
Proof.
  intros Hne Hl. pose proof (np_sum_bounds a b l Hl) as [Hlo Hhi].
  assert (Hn : 0 < INR (length l)).
  { apply lt_0_INR. destruct l; [contradiction | cbn; lia]. }
  unfold np_mean. split.
  - apply (Rmult_le_reg_r (INR (length l))); [exact Hn |].
    unfold Rdiv. rewrite Rmult_assoc, Rinv_l by lra. lra.
  - apply (Rmult_le_reg_r (INR (length l))); [exact Hn |].
    unfold Rdiv. rewrite Rmult_assoc, Rinv_l by lra. lra.
Qed.

Lemma np_sum_call_minus_put (K : R) (l : list R) :
  np_sum (map (fun s => Rmax (s - K) 0) l) - np_sum (map (fun s => Rmax (- s + K) 0) l)
  = np_sum l - INR (length l) * K.
Proof.
  induction l as [| x l IH].
  - cbn [map np_sum foldr length INR]. lra.
  - cbn [map]. change (length (x :: l)) with (S (length l)). rewrite S_INR.
    change (np_sum (?y :: ?m)) with (y + np_sum m).
    change (np_sum (x :: l)) with (x + np_sum l).
    assert (Rmax (x - K) 0 - Rmax (- x + K) 0 = x - K).
    { unfold Rmax. destruct (Rle_dec (x - K) 0), (Rle_dec (- x + K) 0); lra. }
    lra.
Qed.

Lemma np_mean_nonneg (l : list R) : Forall (fun x => 0 <= x) l -> 0 <= np_mean l.
Proof.
  intros Hl. unfold np_mean, Rdiv. apply Rmult_le_pos; [| apply INR_inv_nonneg].
  induction Hl as [| x l Hx _ IH]; [cbn; lra |].
  change (np_sum (x :: l)) with (x + np_sum l). lra.
Qed.

End Means.

(** X6: put-call parity of the Monte Carlo prices.  On the same simulated
    paths the call and the put estimate of [vanillaMC] differ by the
    discounted difference between the mean terminal price and the
    strike. *)
Theorem vanillaMC_put_call_parity
  (gauss : nat -> R) (S K T : R) (N : nat) (sig r : R) :
  (1 <= N)%nat ->
  exists (c p : R) (ST : list R),
    mcol_last (Vanilla.vanillaMC_path gauss S N sig r) = Ok ST
    /\ length ST = N
    /\ Vanilla.vanillaMC gauss S K T N sig r true = Ok c
    /\ Vanilla.vanillaMC gauss S K T N sig r false = Ok p
    /\ c - p = exp (- r * T) * (np_mean ST - K).
Proof.
  intros HN. unfold Vanilla.vanillaMC. rewrite vanillaMC_terminal. res_simpl.
  set (ST := map _ (seq 0 N)).
  assert (Hlen : length ST = N) by (unfold ST; now rewrite length_map, length_seq).
  do 3 eexists. split; [reflexivity |]. split; [exact Hlen |].
  split; [reflexivity |]. split; [reflexivity |].
  unfold np_mean. rewrite !length_map.
  pose proof (np_sum_call_minus_put K ST) as Hsum.
  assert (Hn : INR (length ST) <> 0) by (apply not_0_INR; lia).
  set (a := np_sum (map (fun s => Rmax (s - K) 0) ST)) in *.
  set (b := np_sum (map (fun s => Rmax (- s + K) 0) ST)) in *.
  replace a with (b + (np_sum ST - INR (length ST) * K)) by lra.
  field. exact Hn.
Qed.

Lemma vanillaMC_put_call_parity_witness :
  exists (c p : R) (ST : list R),
    mcol_last (Vanilla.vanillaMC_path (fun _ => 0) 100 3 (2 / 10) (4 / 100)) = Ok ST
    /\ length ST = 3%nat
    /\ Vanilla.vanillaMC (fun _ => 0) 100 100 1 3 (2 / 10) (4 / 100) true = Ok c
    /\ Vanilla.vanillaMC (fun _ => 0) 100 100 1 3 (2 / 10) (4 / 100) false = Ok p
    /\ c - p = exp (- (4 / 100) * 1) * (np_mean ST - 100).
Proof.
  apply (vanillaMC_put_call_parity (fun _ => 0) 100 100 1 3 (2 / 10) (4 / 100)). lia.
Defined.

(** X7: bounds on the Monte Carlo prices.  With a non-negative spot and
    strike every simulated terminal price is non-negative, so the call
    estimate of [vanillaMC] is non-negative and the put estimate lies
    between 0 and the discounted strike. *)
Theorem vanillaMC_price_bounds
  (gauss : nat -> R) (S K T : R) (N : nat) (sig r : R) :
  (1 <= N)%nat -> 0 <= S -> 0 <= K ->
  exists c p : R,
    Vanilla.vanillaMC gauss S K T N sig r true = Ok c
    /\ Vanilla.vanillaMC gauss S K T N sig r false = Ok p
    /\ 0 <= c
    /\ 0 <= p <= exp (- r * T) * K.
Proof.
  intros HN HS HK. unfold Vanilla.vanillaMC. rewrite vanillaMC_terminal. res_simpl.
  set (ST := map _ (seq 0 N)).
  assert (Hpos : Forall (fun s => 0 <= s) ST).
  { unfold ST. apply Forall_forall. intros s Hs.
    apply list_elem_of_fmap in Hs as [i [-> _]].
    apply Rmult_le_pos; [exact HS | left; apply exp_pos]. }
  assert (Hne : ST <> []).
  { unfold ST. destruct N as [| N]; [lia |]. cbn. discriminate. }
  pose proof (exp_pos (- r * T)) as He.
  do 2 eexists. split; [reflexivity |]. split; [reflexivity |].
  assert (Hc : 0 <= np_mean (map (fun s => Rmax (s - K) 0) ST)).
  { apply np_mean_nonneg, Forall_forall. intros x Hx.
    apply list_elem_of_fmap in Hx as [s [-> _]]. apply Rmax_r. }
  assert (Hp : 0 <= np_mean (map (fun s => Rmax (- s + K) 0) ST) <= K).
  { apply np_mean_bounds.
    - destruct ST; [contradiction | discriminate].
    - apply Forall_forall. intros x Hx.
      apply list_elem_of_fmap in Hx as [s [-> Hs]].
      pose proof (proj1 (Forall_forall _ _) Hpos s Hs) as Hs0. cbn in Hs0.
      split; [apply Rmax_r |]. apply Rmax_lub; lra. }
  split; [apply Rmult_le_pos; lra |]. split.
  - apply Rmult_le_pos; lra.
  - apply Rmult_le_compat_l; lra.
Qed.

Lemma vanillaMC_price_bounds_witness :
  exists c p : R,
    Vanilla.vanillaMC (fun _ => 0) 100 100 1 3 (2 / 10) (4 / 100) true = Ok c
    /\ Vanilla.vanillaMC (fun _ => 0) 100 100 1 3 (2 / 10) (4 / 100) false = Ok p
    /\ 0 <= c
    /\ 0 <= p <= exp (- (4 / 100) * 1) * 100.
Proof.
  apply (vanillaMC_price_bounds (fun _ => 0) 100 100 1 3 (2 / 10) (4 / 100));
    [lia | lra | lra].
Defined.

(** * Further properties of the up-and-out notebook *)

Lemma pdiv_zero (a b : R) : b = 0 -> pdiv a b = Raise ZeroDivisionError.
Proof.
  intros ->. unfold pdiv. destruct (Req_dec_T 0 0) as [_ | Hn]; [reflexivity | contradiction].
Qed.

(** X8: the analytical up-and-out pricer raises [ZeroDivisionError]
    whenever the volatility, the barrier, the spot argument or the strike
    is zero, whatever the other arguments and the module-level [S] are: it
    never returns a number for such a contract. *)
Theorem analytical_value_Call_Up_Out_zero_argument
  (Phi : R -> R) (g : UpAndOut.globals) (S0 K L r sigma T : R) :
  sigma = 0 \/ L = 0 \/ S0 = 0 \/ K = 0 ->
  UpAndOut.analytical_value_Call_Up_Out Phi g S0 K L r sigma T
  = Raise ZeroDivisionError.
Proof.
  intros Hz. unfold UpAndOut.analytical_value_Call_Up_Out.
  destruct (Req_dec sigma 0) as [Es | Hs].
  { rewrite (pdiv_zero _ (sigma ^ 2)) by (rewrite Es; ring). reflexivity. }
  rewrite (pdiv_ok _ (sigma ^ 2)) by (apply pow_nonzero; exact Hs). res_simpl.
  destruct (Req_dec L 0) as [El | Hl].
  { rewrite (pdiv_zero S0 L El). reflexivity. }
  rewrite (pdiv_ok S0 L Hl).
  destruct (Req_dec S0 0) as [E0 | H0].
  { rewrite (pdiv_zero L S0 E0). reflexivity. }
  rewrite (pdiv_ok L S0 H0).
  assert (EK : K = 0) by (destruct Hz as [? | [? | [? | ?]]]; [contradiction .. | assumption]).
  rewrite (pdiv_zero _ (S0 * K)) by (rewrite EK; ring). reflexivity.
Qed.

Lemma analytical_value_Call_Up_Out_zero_argument_witness :
  UpAndOut.analytical_value_Call_Up_Out logistic UpAndOut.notebook_globals
    100 100 0 (8 / 100) (3 / 10) 1 = Raise ZeroDivisionError.
Proof.
  apply (analytical_value_Call_Up_Out_zero_argument logistic UpAndOut.notebook_globals
           100 100 0 (8 / 100) (3 / 10) 1).
  right. left. reflexivity.
Defined.

Lemma Rpower_one (y : R) : Rpower 1 y = 1.
Proof. unfold Rpower. rewrite ln_1, Rmult_0_r. apply exp_0. Qed.

(** X9: with the barrier at the spot the option is worth nothing.  Called
    on the module-level spot [S] with [L = S], the pricer returns exactly 0
    (for a symmetric distribution function, [Phi(-x) = 1 - Phi(x)]). *)
Theorem analytical_value_Call_Up_Out_barrier_at_spot
  (Phi : R -> R) (g : UpAndOut.globals) (K r sigma T : R) :
  cdf_symmetric Phi ->
  0 < UpAndOut.g_S g -> 0 < K -> 0 < sigma -> 0 < T ->
  UpAndOut.analytical_value_Call_Up_Out Phi g (UpAndOut.g_S g) K (UpAndOut.g_S g)
    r sigma T = Ok 0.
Proof.
  intros Hsym HS HK Hsig HT. rewrite analytical_value_Call_Up_Out_value by lra.
  f_equal. set (S := UpAndOut.g_S g) in *.
  unfold Spec.call_value, Spec.barrier_terms, Spec.d2.
  assert (Hs : 0 < sqrt T) by now apply sqrt_lt_R0.
  assert (Hss : sqrt T * sqrt T = T) by (apply sqrt_sqrt; lra).
  assert (Hx : Spec.y1 S S T sigma r = Spec.x1 S S T sigma r) by reflexivity.
  assert (Hy : Spec.y S K S T sigma r = Spec.d1 S K T sigma r).
  { unfold Spec.y, Spec.d1, Spec.lambda.
    replace (S ^ 2 / (S * K)) with (S / K) by (field; lra).
    set (s := sqrt T) in *. rewrite <- Hss. field. lra. }
  rewrite Hx, Hy.
  replace (S / S) with 1 by (field; lra). rewrite !Rpower_one.
  set (a := Spec.d1 S K T sigma r). set (x := Spec.x1 S S T sigma r).
  set (w := sigma * sqrt T).
  replace (- a + w) with (- (a - w)) by ring.
  replace (- x + w) with (- (x - w)) by ring.
  rewrite (Hsym a), (Hsym x), (Hsym (a - w)), (Hsym (x - w)). ring.
Qed.

Lemma analytical_value_Call_Up_Out_barrier_at_spot_witness :
  UpAndOut.analytical_value_Call_Up_Out logistic UpAndOut.notebook_globals
    100 100 100 (8 / 100) (3 / 10) 1 = Ok 0.
Proof.
  apply (analytical_value_Call_Up_Out_barrier_at_spot logistic UpAndOut.notebook_globals
           100 (8 / 100) (3 / 10) 1);
    [exact logistic_symmetric | cbn [UpAndOut.g_S UpAndOut.notebook_globals]; lra
     | lra | lra | lra].
Defined.

Section Rows.

Lemma foldl_Rmax_ge_init (x : R) (l : list R) : x <= foldl Rmax x l.
Proof.
  revert x. induction l as [| y l IH]; intros x; cbn [foldl]; [lra |].
  eapply Rle_trans; [apply (Rmax_l x y) | apply IH].
Qed.

Lemma foldl_Rmax_ge (x : R) (l : list R) (y : R) :
  y ∈ l -> y <= foldl Rmax x l.
Proof.
  revert x. induction l as [| z l IH]; intros x Hy; [inversion Hy |].
  cbn [foldl]. apply elem_of_cons in Hy as [-> | Hy].
  - eapply Rle_trans; [apply (Rmax_r x z) | apply foldl_Rmax_ge_init].
  - now apply IH.
Qed.

Lemma row_last_le_max (row : list R) : row <> [] -> row_last row <= row_max row.
Proof.
  destruct row as [| x row]; [contradiction |]. intros _.
  unfold row_last, row_max.
  destruct (last (x :: row)) as [y |] eqn:Hlast; [| apply last_None in Hlast; discriminate].
  cbn [default].
  assert (Hin : y ∈ x :: row).
  { rewrite last_lookup in Hlast. eapply list_elem_of_lookup_2. exact Hlast. }
  apply elem_of_cons in Hin as [-> | Hin].
  - apply foldl_Rmax_ge_init.
  - now apply foldl_Rmax_ge.
Qed.

Lemma last_row_last (row : list R) : row <> [] -> last row = Some (row_last row).
Proof.
  intros Hne. unfold row_last.
  destruct (last row) eqn:E; [reflexivity | apply last_None in E; contradiction].
Qed.

Lemma np_max_row_max (row : list R) : row <> [] -> np_max row = Ok (row_max row).
Proof. destruct row; [contradiction | reflexivity]. Qed.

Lemma mcol_last_rows (m : matrix) :
  Forall (fun row : list R => row <> []) m -> mcol_last m = Ok (map row_last m).
Proof.
  induction 1 as [| row m Hrow _ IH]; cbn [mcol_last map]; [reflexivity |].
  now rewrite (last_row_last row Hrow), IH.
Qed.

Lemma np_max_axis1_rows (m : matrix) :
  Forall (fun row : list R => row <> []) m -> np_max_axis1 m = Ok (map row_max m).
Proof.
  induction 1 as [| row m Hrow _ IH]; cbn [np_max_axis1 map]; [reflexivity |].
  now rewrite (np_max_row_max row Hrow), IH.
Qed.

(** The per-path payoffs of the two Monte Carlo cells, row by row. *)
Lemma cva_final_values_rows (g : UpAndOut.globals) (paths : matrix) :
  Forall (fun row : list R => row <> []) paths ->
  UpAndOut.cva_final_values g paths
  = Ok (map (fun row => if Rge_dec (row_max row) (UpAndOut.g_L g) then 0
                        else Rmax (row_last row - UpAndOut.g_K g) 0) paths).
Proof.
  intros Hne. unfold UpAndOut.cva_final_values.
  rewrite (mcol_last_rows paths Hne), (np_max_axis1_rows paths Hne). res_simpl.
  rewrite np_zip_ok by now rewrite !length_map.
  f_equal. clear Hne. induction paths as [| row paths IH]; [reflexivity |].
  cbn [map zip_with]. rewrite IH. f_equal.
  destruct (Rge_dec (row_max row) (UpAndOut.g_L g)); [reflexivity |].
  destruct (Rlt_dec (row_last row - UpAndOut.g_K g) 0).
  - rewrite Rmax_right by lra. reflexivity.
  - rewrite Rmax_left by lra. reflexivity.
Qed.

Lemma upOutCall_val_rows (g : UpAndOut.globals) (path : matrix) :
  Forall (fun row : list R => row <> []) path ->
  UpAndOut.upOutCall_val g path
  = Ok (map (fun row =>
          exp (- UpAndOut.g_r g * UpAndOut.g_T g)
          * Rmax ((if Rlt_dec (UpAndOut.g_L g) (row_max row) then 0 else row_last row)
                  - UpAndOut.g_K g) 0) path).
Proof.
  induction 1 as [| row path Hrow _ IH]; cbn [UpAndOut.upOutCall_val map]; [reflexivity |].
  rewrite (upOutCall_val_row_value g row _ _ (last_row_last row Hrow) (np_max_row_max row Hrow)).
  now rewrite IH.
Qed.

End Rows.

(** X10: away from the barrier the two Monte Carlo cells price alike.  On
    paths none of whose running maximum equals [L] exactly, and with a
    non-negative strike, the payoffs of the stand-alone cell are the
    payoffs [final_values] of the CVA cell, discounted. *)
Theorem upOutCall_val_agrees_with_cva (g : UpAndOut.globals) (path : matrix) :
  0 <= UpAndOut.g_K g ->
  Forall (fun row : list R => row <> []) path ->
  Forall (fun row : list R => np_max row <> Ok (UpAndOut.g_L g)) path ->
  exists fv,
    UpAndOut.cva_final_values g path = Ok fv
    /\ UpAndOut.upOutCall_val g path
       = Ok (map (fun x => exp (- UpAndOut.g_r g * UpAndOut.g_T g) * x) fv).
Proof.
  intros HK Hne Hoff. eexists. split; [apply cva_final_values_rows; exact Hne |].
  rewrite (upOutCall_val_rows g path Hne). f_equal. rewrite map_map.
  revert Hoff. induction Hne as [| row path Hrow _ IH]; intros Hoff; [reflexivity |].
  apply Forall_cons_1 in Hoff as [Hmax Hoff]. cbn [map].
  f_equal; [| exact (IH Hoff)].
  rewrite (np_max_row_max row Hrow) in Hmax.
  assert (Hm : row_max row <> UpAndOut.g_L g) by congruence.
  f_equal.
  destruct (Rlt_dec (UpAndOut.g_L g) (row_max row)),
           (Rge_dec (row_max row) (UpAndOut.g_L g)); try lra.
  rewrite Rmax_right by lra. reflexivity.
Qed.

Lemma upOutCall_val_agrees_with_cva_witness :
  exists fv,
    UpAndOut.cva_final_values UpAndOut.notebook_globals [[100; 120; 130]; [100; 155; 140]]
      = Ok fv
    /\ UpAndOut.upOutCall_val UpAndOut.notebook_globals [[100; 120; 130]; [100; 155; 140]]
       = Ok (map (fun x => exp (- (8 / 100) * 1) * x) fv).
Proof.
  apply (upOutCall_val_agrees_with_cva UpAndOut.notebook_globals
           [[100; 120; 130]; [100; 155; 140]]).
  - cbn [UpAndOut.g_K UpAndOut.notebook_globals]. lra.
  - repeat constructor; discriminate.
  - repeat constructor; cbn [UpAndOut.g_L UpAndOut.notebook_globals np_max foldl].
    + rewrite (Rmax_right 100 120), (Rmax_right 120 130) by lra.
      intros H; apply Ok_inj in H; lra.
    + rewrite (Rmax_right 100 155), (Rmax_left 155 140) by lra.
      intros H; apply Ok_inj in H; lra.
Defined.

Section PayoffBounds.

Lemma upOutCall_val_bounds (g : UpAndOut.globals) (path : matrix) :
  0 <= UpAndOut.g_K g <= UpAndOut.g_L g ->
  Forall (fun row : list R => row <> []) path ->
  exists v,
    UpAndOut.upOutCall_val g path = Ok v
    /\ length v = length path
    /\ Forall (fun x => 0 <= x <= exp (- UpAndOut.g_r g * UpAndOut.g_T g)
                                   * (UpAndOut.g_L g - UpAndOut.g_K g)) v.
Proof.
  intros HK Hne. eexists. split; [apply upOutCall_val_rows; exact Hne |].
  split; [apply length_map |].
  apply Forall_fmap. eapply Forall_impl; [exact Hne |]. cbn. intros row Hrow.
  pose proof (row_last_le_max row Hrow) as Hle.
  pose proof (exp_pos (- UpAndOut.g_r g * UpAndOut.g_T g)) as He.
  set (disc := exp _) in *.
  assert (Hb : 0 <= Rmax ((if Rlt_dec (UpAndOut.g_L g) (row_max row) then 0
                           else row_last row) - UpAndOut.g_K g) 0
               <= UpAndOut.g_L g - UpAndOut.g_K g).
  { split; [apply Rmax_r |]. apply Rmax_lub; [| lra].
    destruct (Rlt_dec (UpAndOut.g_L g) (row_max row)); lra. }
  split.
  - apply Rmult_le_pos; lra.
  - apply Rmult_le_compat_l; lra.
Qed.

Lemma upOutCall_path_rows_nonempty (g : UpAndOut.globals) (Z : matrix) :
  Forall (fun row : list R => row <> []) (UpAndOut.upOutCall_path g Z)
  /\ length (UpAndOut.upOutCall_path g Z) = length Z.
Proof.
  unfold UpAndOut.upOutCall_path. split.
  - apply Forall_forall. intros row Hin.
    apply list_elem_of_fmap in Hin as [row' [-> _]]. discriminate.
  - now rewrite !length_map.
Qed.

End PayoffBounds.

(** X11: the stand-alone Monte Carlo estimate is bounded by the barrier.
    For [0 <= K <= L] and at least one path, a round of the loop returns an
    estimate between 0 and [e^(-rT)*(L - K)]: no simulated path can pay
    more than a path that ends just at the barrier. *)
Theorem upOutCall_round_bounds (g : UpAndOut.globals) (Z : matrix) :
  0 <= UpAndOut.g_K g <= UpAndOut.g_L g -> Z <> [] ->
  exists v,
    UpAndOut.upOutCall_round g Z = Ok v
    /\ 0 <= v <= exp (- UpAndOut.g_r g * UpAndOut.g_T g)
                 * (UpAndOut.g_L g - UpAndOut.g_K g).
Proof.
  intros HK HZ. unfold UpAndOut.upOutCall_round.
  destruct (upOutCall_path_rows_nonempty g Z) as [Hne Hlen].
  destruct (upOutCall_val_bounds g _ HK Hne) as (v & -> & Hv & Hb).
  res_simpl. eexists. split; [reflexivity |].
  apply np_mean_bounds; [| exact Hb].
  intros ->. cbn in Hv. rewrite Hlen in Hv. destruct Z; [contradiction | discriminate].
Qed.

Lemma upOutCall_round_bounds_witness :
  exists v,
    UpAndOut.upOutCall_round UpAndOut.notebook_globals [[0; 0]; [1; 0]] = Ok v
    /\ 0 <= v <= exp (- (8 / 100) * 1) * (150 - 100).
Proof.
  apply (upOutCall_round_bounds UpAndOut.notebook_globals [[0; 0]; [1; 0]]).
  - cbn [UpAndOut.g_K UpAndOut.g_L UpAndOut.notebook_globals]. lra.
  - discriminate.
Defined.

(** X13: the payoffs of the CVA cell are bounded by the barrier.  For
    [K <= L] every entry of [final_values] lies between 0 and [L - K], and
    the default-free value [DFValue] between 0 and [e^(-rT)*(L - K)]. *)
Theorem cva_cell_payoff_bounds (g : UpAndOut.globals) (paths firm_path : matrix) :
  UpAndOut.g_K g <= UpAndOut.g_L g ->
  paths <> [] ->
  length firm_path = length paths ->
  Forall (fun row : list R => row <> []) paths ->
  Forall (fun row : list R => row <> []) firm_path ->
  exists e : UpAndOut.cva_estimates,
    UpAndOut.cva_cell g paths firm_path = Ok e
    /\ Forall (fun x => 0 <= x <= UpAndOut.g_L g - UpAndOut.g_K g) (UpAndOut.final_values e)
    /\ 0 <= UpAndOut.DFValue e
         <= exp (- UpAndOut.g_r g * UpAndOut.g_T g) * (UpAndOut.g_L g - UpAndOut.g_K g).
Proof.
  intros HK Hne Hlen Hp Hf. unfold UpAndOut.cva_cell.
  rewrite (cva_final_values_rows g paths Hp), (mcol_last_rows firm_path Hf). res_simpl.
  rewrite np_zip_ok by (rewrite !length_map; exact Hlen).
  eexists. split; [reflexivity |].
  cbn [UpAndOut.final_values UpAndOut.DFValue].
  set (fv := map _ paths).
  assert (Hfv : Forall (fun x => 0 <= x <= UpAndOut.g_L g - UpAndOut.g_K g) fv).
  { unfold fv. apply Forall_fmap. eapply Forall_impl; [exact Hp |]. cbn. intros row Hrow.
    pose proof (row_last_le_max row Hrow) as Hle.
    destruct (Rge_dec (row_max row) (UpAndOut.g_L g)); [lra |].
    split; [apply Rmax_r |]. apply Rmax_lub; lra. }
  split; [exact Hfv |].
  pose proof (exp_pos (- UpAndOut.g_r g * UpAndOut.g_T g)) as He.
  set (disc := exp _) in *.
  replace (disc * (UpAndOut.g_L g - UpAndOut.g_K g))
    with ((UpAndOut.g_L g - UpAndOut.g_K g) * disc) by ring.
  replace 0 with (0 * disc) at 1 by ring.
  apply np_mean_bounds.
  - unfold fv. destruct paths; [contradiction | discriminate].
  - apply Forall_fmap. eapply Forall_impl; [exact Hfv |]. cbn. intros x Hx.
    split; apply Rmult_le_compat_r; lra.
Qed.

Lemma cva_cell_payoff_bounds_witness :
  exists e : UpAndOut.cva_estimates,
    UpAndOut.cva_cell UpAndOut.notebook_globals
      [[100; 120; 130]; [100; 155; 140]] [[200; 180; 170]; [200; 210; 220]] = Ok e
    /\ Forall (fun x => 0 <= x <= 150 - 100) (UpAndOut.final_values e)
    /\ 0 <= UpAndOut.DFValue e <= exp (- (8 / 100) * 1) * (150 - 100).
Proof.
  apply (cva_cell_payoff_bounds UpAndOut.notebook_globals
           [[100; 120; 130]; [100; 155; 140]] [[200; 180; 170]; [200; 210; 220]]).
  - cbn [UpAndOut.g_K UpAndOut.g_L UpAndOut.notebook_globals]. lra.
  - discriminate.
  - reflexivity.
  - repeat constructor; discriminate.
  - repeat constructor; discriminate.
Defined.

Section CvaExtremes.

Lemma loss_sum_all_default (c debt : R) (vs xs : list R) :
  length vs = length xs ->
  Forall (fun v => v < debt) vs ->
  np_sum (zip_with (fun v x => c * (if Rlt_dec v debt then 1 else 0) * x) vs xs)
  = c * np_sum xs.
Proof.
  intros Hlen Hv. revert xs Hlen.
  induction Hv as [| v vs Hlt _ IH]; intros [| x xs] Hlen; try discriminate Hlen.
  - cbn [zip_with np_sum foldr]. ring.
  - cbn [zip_with]. change (np_sum (?y :: ?m)) with (y + np_sum m).
    rewrite IH by (cbn in Hlen; lia).
    destruct (Rlt_dec v debt); [ring | contradiction].
Qed.

Lemma loss_sum_no_default (c debt : R) (vs xs : list R) :
  Forall (fun v => debt <= v) vs ->
  np_sum (zip_with (fun v x => c * (if Rlt_dec v debt then 1 else 0) * x) vs xs) = 0.
Proof.
  intros Hv. revert xs.
  induction Hv as [| v vs Hge _ IH]; intros [| x xs]; cbn [zip_with]; try reflexivity.
  change (np_sum (?y :: ?m)) with (y + np_sum m). rewrite IH.
  destruct (Rlt_dec v debt); [lra | ring].
Qed.

Lemma np_sum_scale (c : R) (xs : list R) :
  np_sum (map (fun x => x * c) xs) = c * np_sum xs.
Proof.
  induction xs as [| x xs IH]; cbn [map]; [cbn; ring |].
  change (np_sum (?y :: ?m)) with (y + np_sum m). rewrite IH. ring.
Qed.

Lemma Forall_row_last (P : R -> Prop) (m : matrix) :
  Forall (fun row : list R => exists v, last row = Some v /\ P v) m ->
  Forall P (map row_last m).
Proof.
  intros H. apply Forall_fmap. eapply Forall_impl; [exact H |].
  cbn. intros row [v [Hv HP]]. unfold row_last. now rewrite Hv.
Qed.

End CvaExtremes.

(** X14: the two extremes of the CVA estimate.  If the firm value ends
    below the debt on every path, the estimated loss is the share
    [1 - recovery] of the default-free value; if it does so on no path,
    the estimate is 0. *)
Theorem cva_est_default_extremes (g : UpAndOut.globals) (paths firm_path : matrix) :
  length firm_path = length paths ->
  Forall (fun row : list R => row <> []) paths ->
  Forall (fun row : list R => row <> []) firm_path ->
  exists e : UpAndOut.cva_estimates,
    UpAndOut.cva_cell g paths firm_path = Ok e
    /\ (Forall (fun row : list R => exists v, last row = Some v /\ v < UpAndOut.g_debt g)
               firm_path ->
        UpAndOut.cva_est e = (1 - UpAndOut.g_recovery g) * UpAndOut.DFValue e)
    /\ (Forall (fun row : list R => exists v, last row = Some v /\ UpAndOut.g_debt g <= v)
               firm_path ->
        UpAndOut.cva_est e = 0).
Proof.
  intros Hlen Hp Hf. unfold UpAndOut.cva_cell.
  rewrite (cva_final_values_rows g paths Hp), (mcol_last_rows firm_path Hf). res_simpl.
  rewrite np_zip_ok by (rewrite !length_map; exact Hlen).
  eexists. split; [reflexivity |].
  cbn [UpAndOut.cva_est UpAndOut.DFValue].
  set (fv := map _ paths). set (tf := map row_last firm_path).
  assert (Hl : length tf = length fv) by (unfold tf, fv; rewrite !length_map; exact Hlen).
  unfold np_mean. rewrite length_zip_with, length_map, Hl, Nat.min_id.
  split; intros Hall.
  - rewrite (loss_sum_all_default _ _ tf fv Hl (Forall_row_last _ _ Hall)).
    rewrite np_sum_scale. unfold Rdiv. ring.
  - rewrite (loss_sum_no_default _ _ tf fv (Forall_row_last _ _ Hall)).
    unfold Rdiv. ring.
Qed.

Lemma cva_est_default_extremes_witness :
  exists e : UpAndOut.cva_estimates,
    UpAndOut.cva_cell UpAndOut.notebook_globals
      [[100; 120; 130]; [100; 155; 140]] [[200; 180; 170]; [200; 210; 160]] = Ok e
    /\ (Forall (fun row : list R => exists v, last row = Some v /\ v < 175)
               [[200; 180; 170]; [200; 210; 160]] ->
        UpAndOut.cva_est e = (1 - 25 / 100) * UpAndOut.DFValue e)
    /\ (Forall (fun row : list R => exists v, last row = Some v /\ 175 <= v)
               [[200; 180; 170]; [200; 210; 160]] ->
        UpAndOut.cva_est e = 0).
Proof.
  apply (cva_est_default_extremes UpAndOut.notebook_globals
           [[100; 120; 130]; [100; 155; 140]] [[200; 180; 170]; [200; 210; 160]]).
  - reflexivity.
  - repeat constructor; discriminate.
  - repeat constructor; discriminate.
Defined.

Section CvaPositivity.

Lemma gbm_at_pos (sigma r dt S0 : R) (z : nat -> R) (j : nat) :
  0 < S0 -> 0 < Spec.gbm_at sigma r dt S0 z j.
Proof.
  intros HS. induction j as [| j IH]; cbn [Spec.gbm_at]; [exact HS |].
  unfold Spec.gbm_step. apply Rmult_lt_0_compat; [exact IH | apply exp_pos].
Qed.

End CvaPositivity.

(** X15: the simulation loop of the CVA cell starts every path at the
    module-level [S] (asset) and [V] (firm value) and, when these are
    positive, keeps every simulated value strictly positive. *)
Theorem cva_simulate_positive
  (g : UpAndOut.globals) (gauss : nat -> R) (m n : nat) :
  UpAndOut.g_rho g ^ 2 < 1 -> (1 <= m)%nat ->
  0 < UpAndOut.g_S g -> 0 < UpAndOut.g_V g ->
  exists paths firm_path,
    UpAndOut.cva_simulate g gauss m n = Ok (paths, firm_path)
    /\ (forall i, (i < n)%nat ->
          mget paths i 0 = Ok (UpAndOut.g_S g)
          /\ mget firm_path i 0 = Ok (UpAndOut.g_V g))
    /\ (forall i j, (i < n)%nat -> (j <= m)%nat ->
          exists s v, mget paths i j = Ok s /\ mget firm_path i j = Ok v
                      /\ 0 < s /\ 0 < v).
Proof.
  intros Hrho Hm HS HV.
  destruct (cva_simulate_spec g gauss m n Hrho Hm)
    as (paths & firm & Hsim & _ & _ & Hget).
  exists paths, firm. split; [exact Hsim |]. split.
  - intros i Hi. exact (Hget i 0%nat Hi ltac:(lia)).
  - intros i j Hi Hj. destruct (Hget i j Hi Hj) as [Hp Hf].
    do 2 eexists. split; [exact Hp |]. split; [exact Hf |].
    split; apply gbm_at_pos; assumption.
Qed.

Lemma cva_simulate_positive_witness :
  exists paths firm_path,
    UpAndOut.cva_simulate UpAndOut.notebook_globals (fun _ => 0) 2 3 = Ok (paths, firm_path)
    /\ (forall i, (i < 3)%nat ->
          mget paths i 0 = Ok 100 /\ mget firm_path i 0 = Ok 200)
    /\ (forall i j, (i < 3)%nat -> (j <= 2)%nat ->
          exists s v, mget paths i j = Ok s /\ mget firm_path i j = Ok v
                      /\ 0 < s /\ 0 < v).
Proof.
  apply (cva_simulate_positive UpAndOut.notebook_globals (fun _ => 0) 2 3);
    cbn [UpAndOut.g_rho UpAndOut.g_S UpAndOut.g_V UpAndOut.notebook_globals];
    [lra | lia | lra | lra].
Defined.

(** X16: the cell [C] of the up-and-out notebook is the Black-Scholes call
    price [vanillaBS] of the vanilla notebook at the module-level
    parameters: the two return the same value, and raise alike when the
    strike is zero. *)
Theorem C_is_vanillaBS_call (Phi : R -> R) (g : UpAndOut.globals) :
  UpAndOut.C Phi g
  = Vanilla.vanillaBS Phi (UpAndOut.g_S g) (UpAndOut.g_K g) (UpAndOut.g_T g)
      (UpAndOut.g_sigma g) (UpAndOut.g_r g) true.
Proof.
  unfold UpAndOut.C, UpAndOut.d2, UpAndOut.d1, Vanilla.vanillaBS.
  destruct (Req_dec (UpAndOut.g_K g) 0) as [E | NE].
  - rewrite (pdiv_zero _ _ E). reflexivity.
  - rewrite (pdiv_ok _ _ NE). res_simpl. f_equal. ring.
Qed.

Section MonteCarloCell.

Lemma Rdiv_nonneg (a b : R) : 0 <= a -> 0 <= b -> 0 <= a / b.
Proof.
  intros Ha [Hb | <-]; unfold Rdiv.
  - apply Rmult_le_pos; [exact Ha | left; now apply Rinv_0_lt_compat].
  - rewrite Rinv_0. lra.
Qed.

Lemma list_setitem_ok {A : Type} (l : list A) (i : nat) (x : A) :
  (i < length l)%nat -> list_setitem l i x = Ok (<[i := x]> l).
Proof.
  intros Hi. unfold list_setitem.
  destruct (decide (i < length l)%nat); [reflexivity | contradiction].
Qed.

Lemma mc_round_spec (g : UpAndOut.globals) (gauss : nat -> R) (i c : nat)
  (st : UpAndOut.mc_state) :
  0 <= UpAndOut.g_K g <= UpAndOut.g_L g ->
  (1 <= i)%nat -> (c < 30)%nat ->
  mc_filled g c st ->
  exists st', UpAndOut.mc_round g gauss i st = Ok st' /\ mc_filled g (S c) st'.
Proof.
  intros HK Hi Hc (Hcst & Hlu & Hls & Hup & Hsig).
  unfold UpAndOut.mc_round.
  set (cols := Z.to_nat (py_int (1 / (1 / 10000)))).
  set (Z := randn gauss (UpAndOut.mc_drawn st) (i * 1000) cols).
  assert (HZ : length Z = (i * 1000)%nat)
    by (unfold Z, randn; now rewrite length_map, length_seq).
  destruct (upOutCall_path_rows_nonempty g Z) as [Hne Hlen].
  destruct (upOutCall_val_bounds g _ HK Hne) as (v & -> & Hv & Hb).
  res_simpl.
  rewrite !list_setitem_ok by lia.
  eexists. split; [reflexivity |].
  assert (Hvne : v <> []).
  { intros ->. cbn in Hv. rewrite Hlen, HZ in Hv. lia. }
  unfold mc_filled. cbn [UpAndOut.mc_c UpAndOut.mc_upOutCall UpAndOut.mc_sig].
  rewrite !length_insert, Hcst.
  split; [lia |]. split; [exact Hlu |]. split; [exact Hls |]. split.
  - intros k Hk. destruct (decide (k = c)) as [-> | Hne'].
    + rewrite list_lookup_insert_eq by lia. eexists. split; [reflexivity |].
      now apply np_mean_bounds.
    + rewrite list_lookup_insert_ne by congruence. apply Hup. lia.
  - intros k Hk. destruct (decide (k = c)) as [-> | Hne'].
    + rewrite list_lookup_insert_eq by lia. eexists. split; [reflexivity |].
      apply Rdiv_nonneg; [apply sqrt_pos | apply sqrt_pos].
    + rewrite list_lookup_insert_ne by congruence. apply Hsig. lia.
Qed.

End MonteCarloCell.

(** X12: the loop of the Monte Carlo cell runs its thirty rounds to the
    end.  For [0 <= K <= L] it fills all thirty slots of [upOutCall] and
    [sig] (no [None] is left and no index is out of range), every estimate
    lies between 0 and [e^(-rT)*(L - K)], and every standard error is
    non-negative. *)
Theorem mc_loop_estimates (g : UpAndOut.globals) (gauss : nat -> R) :
  0 <= UpAndOut.g_K g <= UpAndOut.g_L g ->
  exists st : UpAndOut.mc_state,
    UpAndOut.mc_loop g gauss = Ok st
    /\ UpAndOut.mc_c st = 30%nat
    /\ (forall k, (k < 30)%nat ->
          exists e, UpAndOut.mc_upOutCall st !! k = Some (Some e)
                    /\ 0 <= e <= exp (- UpAndOut.g_r g * UpAndOut.g_T g)
                                 * (UpAndOut.g_L g - UpAndOut.g_K g))
    /\ (forall k, (k < 30)%nat ->
          exists s, UpAndOut.mc_sig st !! k = Some (Some s) /\ 0 <= s).
Proof.
  intros HK. unfold UpAndOut.mc_loop.
  destruct (for_seq_inv (fun x st => mc_filled g (x - 1) st)
              (UpAndOut.mc_round g gauss) 30 1
              (UpAndOut.McState (replicate 30 None) (replicate 30 None) 0 0))
    as [st [Hfor Hst]].
  - unfold mc_filled. cbn [UpAndOut.mc_c UpAndOut.mc_upOutCall UpAndOut.mc_sig].
    rewrite !length_replicate.
    split; [reflexivity |]. split; [reflexivity |]. split; [reflexivity |].
    split; intros k Hk; lia.
  - intros x st Hx Hinv.
    replace (S x - 1)%nat with (S (x - 1)) by lia.
    apply mc_round_spec; [exact HK | lia | lia | exact Hinv].
  - destruct Hst as (Hc & _ & _ & Hup & Hse).
    exists st. split; [exact Hfor |].
    split; [exact Hc |]. split; [exact Hup | exact Hse].
Qed.

Lemma mc_loop_estimates_witness :
  exists st : UpAndOut.mc_state,
    UpAndOut.mc_loop UpAndOut.notebook_globals (fun _ => 0) = Ok st
    /\ UpAndOut.mc_c st = 30%nat
    /\ (forall k, (k < 30)%nat ->
          exists e, UpAndOut.mc_upOutCall st !! k = Some (Some e)
                    /\ 0 <= e <= exp (- (8 / 100) * 1) * (150 - 100))
    /\ (forall k, (k < 30)%nat ->
          exists s, UpAndOut.mc_sig st !! k = Some (Some s) /\ 0 <= s).
Proof.
  apply (mc_loop_estimates UpAndOut.notebook_globals (fun _ => 0)).
  cbn [UpAndOut.g_K UpAndOut.g_L UpAndOut.notebook_globals]. lra.
Defined.
